(** * Article extraction and block conversion of [scripts/register-images.js]

    A shallow embedding of the Twig parser ([parseTwigFile] and the functions
    it calls) and of the rich-text builder ([buildRichTextContent],
    [parseInlineHtml]), followed by the properties established about them.

    Conventions of the embedding:
    - a JavaScript string is a [list ascii]: one element per code unit, the
      model covering code units below 256;
    - a JavaScript index is a [Z], so that the [-1] of [indexOf] and the
      clamping and swapping of [substring] are the ones of the language;
    - a [while] loop is an instance of [while], which iterates a body while a
      condition holds and takes the number of iterations it may use;
    - a regular expression literal is a term of [regex], run by a backtracking
      matcher with the priorities of the language (leftmost match, greedy and
      lazy repetition, first alternative first). *)

From Stdlib Require Import Ascii String.
From Stdlib Require Import List ZArith Lia Bool Arith.
Import ListNotations.

Set Implicit Arguments.

(* ------------------------------------------------------------------------- *)
(** ** Strings *)

Module JsString.

Definition str := list ascii.

(** A literal of the source. *)
Definition js (s : string) : str := list_ascii_of_string s.

Definition len (s : str) : Z := Z.of_nat (length s).

Definition chr_eqb (a b : ascii) : bool := Ascii.eqb a b.
Arguments chr_eqb : simpl never.

Fixpoint str_eqb (a b : str) : bool :=
  match a, b with
  | [], [] => true
  | x :: a', y :: b' => chr_eqb x y && str_eqb a' b'
  | _, _ => false
  end.

(** A string is truthy when it is not empty. *)
Definition truthy (s : str) : bool :=
  match s with [] => false | _ => true end.

(** White space and line terminators, as [\s] and [trim] see them. *)
Definition isSpace (c : ascii) : bool :=
  match N_of_ascii c with
  | 9%N | 10%N | 11%N | 12%N | 13%N | 32%N | 160%N => true
  | _ => false
  end.

(** Line terminators, which [.] refuses without the [s] flag. *)
Definition isLineTerminator (c : ascii) : bool :=
  match N_of_ascii c with
  | 10%N | 13%N => true
  | _ => false
  end.

Fixpoint trimStart (s : str) : str :=
  match s with
  | c :: s' => if isSpace c then trimStart s' else s
  | [] => []
  end.

Definition trimEnd (s : str) : str := rev (trimStart (rev s)).

Definition trim (s : str) : str := trimEnd (trimStart s).

Fixpoint startsWith (s p : str) {struct p} : bool :=
  match p, s with
  | [], _ => true
  | x :: p', y :: s' => chr_eqb x y && startsWith s' p'
  | _ :: _, [] => false
  end.

(** First index, counted from [i], at which [pat] starts in [s]. *)
Fixpoint findFrom (pat s : str) (i : nat) : option nat :=
  if startsWith s pat then Some i
  else match s with
       | [] => None
       | _ :: s' => findFrom pat s' (S i)
       end.

Definition clamp (s : str) (i : Z) : nat :=
  Z.to_nat (Z.min (Z.max i 0) (len s)).

(** [s.indexOf(pat, from)]. *)
Definition indexOf (s pat : str) (from : Z) : Z :=
  let k := clamp s from in
  match findFrom pat (skipn k s) k with
  | Some i => Z.of_nat i
  | None => (-1)%Z
  end.

Definition includes (s pat : str) : bool :=
  negb (indexOf s pat 0 =? -1)%Z.

(** [s.substring(a, b)]: both ends clamped to the string, swapped when
    [a > b]. *)
Definition substring (s : str) (a b : Z) : str :=
  let a' := clamp s a in
  let b' := clamp s b in
  let lo := Nat.min a' b' in
  let hi := Nat.max a' b' in
  firstn (hi - lo) (skipn lo s).

(** [s.substring(a)]. *)
Definition substringFrom (s : str) (a : Z) : str := skipn (clamp s a) s.

(** [s[i]], [None] standing for [undefined]. *)
Definition charAt (s : str) (i : Z) : option ascii :=
  if (i <? 0)%Z then None else nth_error s (Z.to_nat i).

Definition charIs (s : str) (i : Z) (c : ascii) : bool :=
  match charAt s i with
  | Some x => chr_eqb x c
  | None => false
  end.

(** [s.split(sep)] for a separator of one character: the pieces between the
    separators, in order, the empty ones included. *)
Fixpoint splitChar (sep : ascii) (s : str) : list str :=
  match s with
  | [] => [[]]
  | c :: s' =>
      if chr_eqb c sep then [] :: splitChar sep s'
      else match splitChar sep s' with
           | p :: ps => (c :: p) :: ps
           | [] => [[c]]
           end
  end.

End JsString.
Import JsString.

(* ------------------------------------------------------------------------- *)
(** ** Loops *)

(** [while fuel cond body s] runs [while (cond) body] from the state [s] for at
    most [fuel] iterations; [None] when the condition still holds after them. *)
Fixpoint while (St : Type) (fuel : nat) (cond : St -> bool) (body : St -> St)
    (s : St) : option St :=
  if cond s then
    match fuel with
    | O => None
    | S fuel' => while fuel' cond body (body s)
    end
  else Some s.

(** The loop with a budget of [fuel] iterations, the state being left as it is
    should the budget not suffice. Every loop of the source is given a budget
    that does suffice ([scanLoop_terminates], [skipStrings_terminates],
    [seekBracket_terminates]). *)
Definition runWhile (St : Type) (fuel : nat) (cond : St -> bool)
    (body : St -> St) (s : St) : St :=
  match while fuel cond body s with
  | Some s' => s'
  | None => s
  end.

(* ------------------------------------------------------------------------- *)
(** ** The delimiter scan

    The source repeats one loop for braces ([parseArticleDataPattern]),
    parentheses ([parseMacroCallPattern]) and brackets
    ([findContentSectionsEnd], [parseContentSections]):
<<
    let depth = 1; let pos = start + 1;
    while (pos < text.length && depth > 0) {
      if (text[pos] === OPEN) depth++;
      else if (text[pos] === CLOSE) depth--;
      pos++;
    }
>>
    The state of the loop is the pair of [pos] and [depth]. *)

Record ScanState := { scanPos : Z; scanDepth : Z }.

Definition scanCond (text : str) (st : ScanState) : bool :=
  (scanPos st <? len text)%Z && (0 <? scanDepth st)%Z.

Definition scanBody (open close : ascii) (text : str) (st : ScanState)
    : ScanState :=
  {| scanPos := scanPos st + 1;
     scanDepth :=
       if charIs text (scanPos st) open then scanDepth st + 1
       else if charIs text (scanPos st) close then scanDepth st - 1
       else scanDepth st |}%Z.

Definition scanLoop (fuel : nat) (open close : ascii) (text : str) (pos : Z)
    : option ScanState :=
  while fuel (scanCond text) (scanBody open close text)
    {| scanPos := pos; scanDepth := 1 |}.

(** The value of [pos] after the loop started at [pos] with depth 1. *)
Definition scanClose (open close : ascii) (text : str) (pos : Z) : Z :=
  scanPos (runWhile (length text) (scanCond text) (scanBody open close text)
             {| scanPos := pos; scanDepth := 1 |}).

(* ------------------------------------------------------------------------- *)
(** ** Regular expressions

    The fragment of the language's regular expressions that the source uses:
    character classes, literals, sequence, alternation, greedy and lazy
    repetition, and capture groups (none of them under a repetition). The
    matcher is the backtracking one of the language, in continuation-passing
    style: [run r s cs k] matches [r] at the head of [s] and hands the rest of
    the string and the captures to [k]; when [k] fails, the next choice of [r]
    is tried. *)

Module Regex.

Inductive regex : Type :=
| Eps
| Chr (p : ascii -> bool)
| Lit (l : str)
| Seq (r1 r2 : regex)
| Alt (r1 r2 : regex)
| Star (greedy : bool) (r : regex)
| Group (n : nat) (r : regex).

(** The captures so far, the latest first. *)
Definition Caps := list (nat * str).

Definition Cont (A : Type) := str -> Caps -> option A.

Section Matcher.
Variable A : Type.

(** Repetition of [body]: an iteration that consumes nothing is refused, so at
    most [length s] iterations can be made from [s], which is the [fuel] that
    [run] gives. *)
Fixpoint repeatMatch (fuel : nat) (greedy : bool)
    (body : str -> Caps -> Cont A -> option A)
    (s : str) (cs : Caps) (k : Cont A) : option A :=
  match fuel with
  | O => k s cs
  | S fuel' =>
      let again (_ : unit) :=
        body s cs (fun s' cs' =>
          if length s' <? length s
          then repeatMatch fuel' greedy body s' cs' k
          else None) in
      if greedy then
        match again tt with
        | Some x => Some x
        | None => k s cs
        end
      else
        match k s cs with
        | Some x => Some x
        | None => again tt
        end
  end.

Fixpoint run (r : regex) (s : str) (cs : Caps) (k : Cont A) : option A :=
  match r with
  | Eps => k s cs
  | Chr p =>
      match s with
      | c :: s' => if p c then k s' cs else None
      | [] => None
      end
  | Lit l => if startsWith s l then k (skipn (length l) s) cs else None
  | Seq r1 r2 => run r1 s cs (fun s' cs' => run r2 s' cs' k)
  | Alt r1 r2 =>
      match run r1 s cs k with
      | Some x => Some x
      | None => run r2 s cs k
      end
  | Star greedy r1 => repeatMatch (length s) greedy (run r1) s cs k
  | Group n r1 =>
      run r1 s cs (fun s' cs' =>
        k s' ((n, firstn (length s - length s') s) :: cs'))
  end.

End Matcher.

(** A match at the head of [s]: what follows the match, and the captures. *)
Definition matchHere (r : regex) (s : str) : option (str * Caps) :=
  run r s [] (fun s' cs => Some (s', cs)).

(** What [exec] and [match] return: the index of the leftmost match, the
    matched text, the captures and what follows the match. *)
Record Match := {
  mIndex : nat;
  mText : str;
  mCaps : Caps;
  mRest : str
}.

Fixpoint searchFrom (r : regex) (s : str) (i : nat) : option Match :=
  match matchHere r s with
  | Some (rest, cs) =>
      Some {| mIndex := i; mText := firstn (length s - length rest) s;
              mCaps := cs; mRest := rest |}
  | None =>
      match s with
      | [] => None
      | _ :: s' => searchFrom r s' (S i)
      end
  end.

(** [s.match(r)] for [r] without the [g] flag. *)
Definition exec (r : regex) (s : str) : option Match := searchFrom r s 0.

(** [s.match(r)] for a pattern that starts with [^]: the match is tried at
    index 0 only. *)
Definition execAtStart (r : regex) (s : str) : option Match :=
  match matchHere r s with
  | Some (rest, cs) =>
      Some {| mIndex := 0; mText := firstn (length s - length rest) s;
              mCaps := cs; mRest := rest |}
  | None => None
  end.

(** [r.test(s)]. *)
Definition test (r : regex) (s : str) : bool :=
  match exec r s with Some _ => true | None => false end.

Fixpoint lookup (n : nat) (cs : Caps) : option str :=
  match cs with
  | [] => None
  | (m, v) :: cs' => if Nat.eqb n m then Some v else lookup n cs'
  end.

(** [m[n]]. Every group of the source's patterns takes part in every match of
    its pattern, so the default is never used. *)
Definition group (n : nat) (m : Match) : str :=
  match lookup n (mCaps m) with
  | Some v => v
  | None => []
  end.

(** The successive matches of a pattern with the [g] flag, as the loop
    [while ((m = r.exec(s)) !== null)] sees them: each search starts where the
    match before ended. The patterns of the source match no empty string; the
    model steps over one, and the language would not. *)
Fixpoint matchAllLoop (fuel : nat) (r : regex) (s : str) (i : nat)
    : list Match :=
  match fuel with
  | O => []
  | S fuel' =>
      match searchFrom r s i with
      | None => []
      | Some m =>
          if length (mRest m) <? length s
          then m :: matchAllLoop fuel' r (mRest m)
                      (mIndex m + length (mText m))
          else m :: match s with
                    | [] => []
                    | _ :: s' => matchAllLoop fuel' r s' (S i)
                    end
      end
  end.

Definition matchAll (r : regex) (s : str) : list Match :=
  matchAllLoop (S (length s)) r s 0.

(** [s.replace(r, repl)] for [r] with the [g] flag and [repl] without [$]. *)
Fixpoint replaceLoop (fuel : nat) (r : regex) (repl s : str) : str :=
  match fuel with
  | O => s
  | S fuel' =>
      match matchHere r s with
      | Some (rest, _) =>
          if length rest <? length s
          then repl ++ replaceLoop fuel' r repl rest
          else match s with
               | [] => repl
               | c :: s' => repl ++ c :: replaceLoop fuel' r repl s'
               end
      | None =>
          match s with
          | [] => []
          | c :: s' => c :: replaceLoop fuel' r repl s'
          end
      end
  end.

Definition replaceAll (r : regex) (repl s : str) : str :=
  replaceLoop (S (length s)) r repl s.

(** [s.split(r)] for a pattern [r] that is one capture group and matches no
    empty string: the pieces between the matches and the matches themselves,
    alternating, the empty pieces included. [piece] is the piece under way,
    reversed. *)
Fixpoint splitLoop (fuel : nat) (r : regex) (piece s : str) : list str :=
  match fuel with
  | O => [rev piece ++ s]
  | S fuel' =>
      match s with
      | [] => [rev piece]
      | c :: s' =>
          match matchHere r s with
          | Some (rest, _) =>
              if length rest <? length s
              then rev piece :: firstn (length s - length rest) s
                     :: splitLoop fuel' r [] rest
              else splitLoop fuel' r (c :: piece) s'
          | None => splitLoop fuel' r (c :: piece) s'
          end
      end
  end.

Definition splitKeep (r : regex) (s : str) : list str :=
  splitLoop (S (length s)) r [] s.

(** *** Pieces of patterns *)

Definition anyChar : regex := Chr (fun _ => true).
Definition dot : regex := Chr (fun c => negb (isLineTerminator c)).
Definition space : regex := Chr isSpace.
Definition spaces : regex := Star true space.
Definition spaces1 : regex := Seq space spaces.
Definition notChr (c : ascii) : regex := Chr (fun x => negb (chr_eqb x c)).
Definition opt (r : regex) : regex := Alt r Eps.
Definition L (s : string) : regex := Lit (js s).

Fixpoint seq (rs : list regex) : regex :=
  match rs with
  | [] => Eps
  | [r] => r
  | r :: rs' => Seq r (seq rs')
  end.

Definition quote : ascii := "'"%char.
Definition backslash : ascii := "\"%char.
Definition dquote : ascii := "034"%char.

(** [(?:[^'\\]|\\.)*] with an [any] that is [.] as the flags make it. *)
Definition quotedBody (any : regex) : regex :=
  Star true
    (Alt (Chr (fun c => negb (chr_eqb c quote || chr_eqb c backslash)))
         (Seq (Lit [backslash]) any)).

End Regex.
Import Regex.

(* ------------------------------------------------------------------------- *)
(** ** The data model

    The objects that the parser builds. A property that the source may leave
    unset is an [option]; the fields called [title], [content], [lists], ... in
    several objects of the source carry the name of their object here. *)

Record TocItem := { href : str; tocTitle : str }.

(** A list: [title], [ordered], [items]. *)
Record ContentList := {
  listTitle : str;
  ordered : bool;
  items : list str
}.

(** A subsection: [subheading], [content], [additionalContent], [imageSrc],
    [imageAlt], [lists]. *)
Record Subsection := {
  subheading : str;
  subContent : str;
  subAdditionalContent : str;
  subImageSrc : option str;
  subImageAlt : option str;
  subLists : list ContentList
}.

(** A section: [id], [heading], [content], [additionalContent], [lists],
    [imageSrc], [imageAlt], [subsections]. *)
Record Section := {
  secId : str;
  heading : str;
  content : str;
  additionalContent : str;
  lists : list ContentList;
  secImageSrc : option str;
  secImageAlt : option str;
  subsections : list Subsection
}.

(** The [result] of [parseTwigFile]. *)
Record ParsedArticle := {
  metaTitle : option str;
  metaDescription : option str;
  title : option str;
  imagePath : option str;
  imageAlt : option str;
  introText : option str;
  tocItems : option (list TocItem);
  contentSections : option (list Section);
  conclusion : option str;
  rawHtml : option str
}.

(** [const result = {}]. *)
Definition emptyResult : ParsedArticle :=
  {| metaTitle := None; metaDescription := None; title := None;
     imagePath := None; imageAlt := None; introText := None;
     tocItems := None; contentSections := None; conclusion := None;
     rawHtml := None |}.

(** A text node: [text], and [bold] and [italic], absent when not [true]. *)
Record TextRun := { text : str; bold : bool; italic : bool }.

(** The blocks of the rich text: [heading] with its [level], [paragraph], and
    [list] with its [format] ([true] for ['ordered']) and one sequence of text
    nodes for each [list-item]. *)
Inductive Block : Type :=
| Heading (level : nat) (children : list TextRun)
| Paragraph (children : list TextRun)
| ListBlock (isOrdered : bool) (listItems : list (list TextRun)).

(** [arr.push(x)]. *)
Definition push (A : Type) (arr : list A) (x : A) : list A := arr ++ [x].

(** A string that may be unset is truthy when set and not empty. *)
Definition truthyOpt (o : option str) : bool :=
  match o with Some s => truthy s | None => false end.

Definition orEmpty (o : option str) : str :=
  match o with Some s => s | None => [] end.

(* ------------------------------------------------------------------------- *)
(** ** The patterns of the source

    In the patterns quoted here a space stands between a star and a closing
    parenthesis that follows it. *)

(** ['key'\s*:\s*'([^']* )'], the capture being group [n]. *)
Definition keyValue (key : string) (n : nat) : regex :=
  seq [L "'"; L key; L "'"; spaces; L ":"; spaces; L "'";
       Group n (Star true (notChr quote)); L "'"].

(** [/\\'/g] *)
Definition escapedQuoteRegex : regex := Lit [backslash; quote].

(** [/\\n/g] *)
Definition escapedNewlineRegex : regex := Lit [backslash; "n"%char].

(** [/\{%\s*block\s+title\s*%\}([\s\S]*?)\{%\s*endblock/] *)
Definition titleBlockRegex : regex :=
  seq [L "{%"; spaces; L "block"; spaces1; L "title"; spaces; L "%}";
       Group 1 (Star false anyChar); L "{%"; spaces; L "endblock"].

(** [/\{\{.*?\}\}/g] *)
Definition twigPrintRegex : regex :=
  seq [L "{{"; Star false dot; L "}}"].

(** [/\{%.*?%\}/g] *)
Definition twigTagRegex : regex :=
  seq [L "{%"; Star false dot; L "%}"].

(** [/\s+/g] *)
Definition spacesRegex : regex := spaces1.

(** [/name=QdescriptionQ\s+content=Q([^Q]* )Q/], [Q] being the double
    quote. *)
Definition metaDescRegex : regex :=
  seq [L "name="; Lit [dquote]; L "description"; Lit [dquote]; spaces1;
       L "content="; Lit [dquote]; Group 1 (Star true (notChr dquote));
       Lit [dquote]].

(** [/'image'\s*:\s*asset\(\s*'([^']* )'\s*\)/] *)
Definition imageRegex : regex :=
  seq [L "'image'"; spaces; L ":"; spaces; L "asset("; spaces; L "'";
       Group 1 (Star true (notChr quote)); L "'"; spaces; L ")"].

(** [/\{\s*'href'\s*:\s*'([^']* )'\s*,\s*'title'\s*:\s*'([^']* )'\s*\}/g]:
    group 1 is the value of ['href'], group 2 the value of ['title']. *)
Definition tocHrefTitleRegex : regex :=
  seq [L "{"; spaces; keyValue "href" 1; spaces; L ","; spaces;
       keyValue "title" 2; spaces; L "}"].

(** [/\{\s*'title'\s*:\s*'([^']* )'\s*,\s*'href'\s*:\s*'([^']* )'\s*\}/g]:
    group 1 is the value of ['title'], group 2 the value of ['href']. *)
Definition tocTitleHrefRegex : regex :=
  seq [L "{"; spaces; keyValue "title" 1; spaces; L ","; spaces;
       keyValue "href" 2; spaces; L "}"].

(** [/^\s*'((?:[^'\\]|\\.)* )'/s], without its [^]: see [execAtStart]. *)
Definition firstStringRegex : regex :=
  seq [spaces; L "'"; Group 1 (quotedBody anyChar); L "'"].

(** [/asset\(\s*'([^']* )'\s*\)/] *)
Definition assetRegex : regex :=
  seq [L "asset("; spaces; L "'"; Group 1 (Star true (notChr quote)); L "'";
       spaces; L ")"].

(** [/,\s*'((?:[^'\\]|\\.)* )'/s] *)
Definition altRegex : regex :=
  seq [L ","; spaces; L "'"; Group 1 (quotedBody anyChar); L "'"].

(** [/,\s*'(?:[^'\\]|\\.)*'\s*,\s*'((?:[^'\\]|\\.)* )'/s] *)
Definition introRegex : regex :=
  seq [L ","; spaces; L "'"; quotedBody anyChar; L "'"; spaces; L ",";
       spaces; L "'"; Group 1 (quotedBody anyChar); L "'"].

(** What a call may do: return a value, raise [SyntaxError], or fall outside
    what this embedding reads. *)
Inductive Outcome (A : Type) : Type :=
| Returned (a : A)
| SyntaxError
| NotRead.
Arguments SyntaxError {A}.
Arguments NotRead {A}.

(** The characters that the notation of patterns reads as operators. *)
Definition isPatternOperator (c : ascii) : bool :=
  existsb (chr_eqb c) (js "\^$.*+?()[]{}|").

(** How [new RegExp] reads the [key] that [extractStringValue] splices into
    the source of its pattern, with the number of the capture groups that the
    key opens. A character that is no operator stands for itself, [.] for any
    character (the flag [s] is set), and parentheses make a capture group,
    numbered by its opening parenthesis; a parenthesis without its partner
    raises [SyntaxError]. The other operators are not read here. [outer]
    holds, for each group that is open, its number and the atoms before it;
    [atoms] are the atoms of the innermost group so far, the latest first. *)
Fixpoint readKeyLoop (key : str) (outer : list (nat * list regex))
    (atoms : list regex) (groups : nat) : Outcome (regex * nat) :=
  match key with
  | [] =>
      match outer with
      | [] => Returned (seq (rev atoms), groups)
      | _ :: _ => SyntaxError
      end
  | c :: key' =>
      if chr_eqb c "("%char then
        readKeyLoop key' ((S groups, atoms) :: outer) [] (S groups)
      else if chr_eqb c ")"%char then
        match outer with
        | [] => SyntaxError
        | (n, before) :: outer' =>
            readKeyLoop key' outer' (Group n (seq (rev atoms)) :: before) groups
        end
      else if chr_eqb c "."%char then
        readKeyLoop key' outer (anyChar :: atoms) groups
      else if isPatternOperator c then NotRead
      else readKeyLoop key' outer (Lit [c] :: atoms) groups
  end.

Definition readKey (key : str) : Outcome (regex * nat) :=
  readKeyLoop key [] [] 0.

(** [new RegExp("'" + key + "'\\s*:\\s*'((?:[^'\\\\]|\\\\.)* )'", 's')]: the
    pattern ['key'\s*:\s*'((?:[^'\\]|\\.)* )'], the group of the value coming
    after those of the key. The keys that the source passes are words
    ([title], [image_alt], [intro_text], [conclusion], [id], [heading],
    [content], [additional_content], [subheading]). *)
Definition stringValueRegex (key : str) : Outcome regex :=
  match readKey key with
  | Returned (k, groups) =>
      Returned
        (seq [L "'"; k; L "'"; spaces; L ":"; spaces; L "'";
              Group (S groups) (quotedBody anyChar); L "'"])
  | SyntaxError => SyntaxError
  | NotRead => NotRead
  end.

(** [/'((?:[^'\\]|\\.)* )'/g] *)
Definition itemRegex : regex :=
  seq [L "'"; Group 1 (quotedBody dot); L "'"].

(** [/'image'\s*:\s*\{[\s\S]*?'src'\s*:\s*asset\(\s*'([^']* )'\s*\)[\s\S]*?'alt'\s*:\s*'([^']* )'/] *)
Definition objectImageRegex : regex :=
  seq [L "'image'"; spaces; L ":"; spaces; L "{"; Star false anyChar;
       L "'src'"; spaces; L ":"; spaces; L "asset("; spaces; L "'";
       Group 1 (Star true (notChr quote)); L "'"; spaces; L ")";
       Star false anyChar; keyValue "alt" 2].

(** [/'items'\s*:\s*\[([\s\S]*?)\]/] *)
Definition simpleListRegex : regex :=
  seq [L "'items'"; spaces; L ":"; spaces; L "["; Group 1 (Star false anyChar);
       L "]"].

(** [/\{%\s*block\s+workarea_content\s*%\}([\s\S]*?)\{%\s*endblock/] *)
Definition workareaRegex : regex :=
  seq [L "{%"; spaces; L "block"; spaces1; L "workarea_content"; spaces;
       L "%}"; Group 1 (Star false anyChar); L "{%"; spaces; L "endblock"].

(** [/(<a\s[^>]*>[\s\S]*?<\/a>|<strong>[\s\S]*?<\/strong>|<b>[\s\S]*?<\/b>|<em>[\s\S]*?<\/em>|<i>[\s\S]*?<\/i>)/] *)
Definition inlineTagRegex : regex :=
  Group 1
    (Alt (seq [L "<a"; space; Star true (notChr ">"%char); L ">";
               Star false anyChar; L "</a>"])
    (Alt (seq [L "<strong>"; Star false anyChar; L "</strong>"])
    (Alt (seq [L "<b>"; Star false anyChar; L "</b>"])
    (Alt (seq [L "<em>"; Star false anyChar; L "</em>"])
         (seq [L "<i>"; Star false anyChar; L "</i>"]))))).

(** [/<a\s+href=Q([^Q]* )Q[^>]*>([\s\S]*?)<\/a>/], [Q] being the double
    quote. *)
Definition linkRegex : regex :=
  seq [L "<a"; spaces1; L "href="; Lit [dquote];
       Group 1 (Star true (notChr dquote)); Lit [dquote];
       Star true (notChr ">"%char); L ">"; Group 2 (Star false anyChar);
       L "</a>"].

(** [/<\/?strong>|<\/?b>|<\/?em>|<\/?i>/g] *)
Definition emphasisTagRegex : regex :=
  Alt (seq [L "<"; opt (L "/"); L "strong>"])
 (Alt (seq [L "<"; opt (L "/"); L "b>"])
 (Alt (seq [L "<"; opt (L "/"); L "em>"])
      (seq [L "<"; opt (L "/"); L "i>"]))).

(** [/<strong>|<b>/] *)
Definition boldOpenRegex : regex := Alt (L "<strong>") (L "<b>").

(** [/<(?:strong|b)>([\s\S]*?)<\/(?:strong|b)>/] *)
Definition boldRegex : regex :=
  seq [L "<"; Alt (L "strong") (L "b"); L ">"; Group 1 (Star false anyChar);
       L "</"; Alt (L "strong") (L "b"); L ">"].

(** [/<(?:em|i)>([\s\S]*?)<\/(?:em|i)>/] *)
Definition italicRegex : regex :=
  seq [L "<"; Alt (L "em") (L "i"); L ">"; Group 1 (Star false anyChar);
       L "</"; Alt (L "em") (L "i"); L ">"].

(* ------------------------------------------------------------------------- *)
(** ** The Twig parser *)

(** [.replace(/\\'/g, "'")] of the source, the replacement being one quote. *)
Definition unescapeQuotes (s : str) : str :=
  replaceAll escapedQuoteRegex [quote] s.

(** [extractStringValue(text, key)]. *)
Definition extractStringValue (text key : str) : Outcome str :=
  match stringValueRegex key with
  | Returned regex =>
      Returned
        (match exec regex text with
         | Some m =>
             replaceAll escapedNewlineRegex ["010"%char]
               (unescapeQuotes (group 1 m))
         | None => []
         end)
  | SyntaxError => SyntaxError
  | NotRead => NotRead
  end.
Arguments extractStringValue : simpl never.

(** What a call of [extractStringValue] returns. The parser passes keys that
    are words, for which the call does return
    ([extractStringValue_returns]). *)
Definition valueOf (o : Outcome str) : str :=
  match o with
  | Returned v => v
  | _ => []
  end.

(** [splitTopLevelObjects(str)]: the [for] loop over [i], of which [rest] is
    what [str] holds from [i] on. *)
Fixpoint splitObjectsLoop (s rest : str) (i : Z) (objects : list str)
    (depth start : Z) : list str :=
  match rest with
  | [] => objects
  | c :: rest' =>
      if chr_eqb c "{"%char then
        splitObjectsLoop s rest' (i + 1) objects (depth + 1)
          (if (depth =? 0)%Z then i else start)
      else if chr_eqb c "}"%char then
        let depth' := (depth - 1)%Z in
        if (depth' =? 0)%Z && negb (start =? -1)%Z then
          splitObjectsLoop s rest' (i + 1)
            (push objects (substring s start (i + 1))) depth' (-1)
        else splitObjectsLoop s rest' (i + 1) objects depth' start
      else splitObjectsLoop s rest' (i + 1) objects depth start
  end.

Definition splitTopLevelObjects (s : str) : list str :=
  splitObjectsLoop s s 0 [] 0 (-1).

(** The loop that skips the first four string arguments, in
    [findContentSectionsEnd] and in [parseContentSections]:
<<
    while (i < text.length && stringCount < 4) {
      if (text[i] === "'" && (i === 0 || text[i - 1] !== '\\')) {
        inString = !inString;
        if (!inString) stringCount++;
      }
      i++;
    }
>> *)
Record SkipState := { skipI : Z; stringCount : Z; inString : bool }.

Definition skipCond (text : str) (st : SkipState) : bool :=
  (skipI st <? len text)%Z && (stringCount st <? 4)%Z.

Definition skipBody (text : str) (st : SkipState) : SkipState :=
  let i := skipI st in
  if charIs text i quote
     && ((i =? 0)%Z || negb (charIs text (i - 1) backslash))
  then
    let inString' := negb (inString st) in
    {| skipI := i + 1;
       stringCount :=
         if negb inString' then stringCount st + 1 else stringCount st;
       inString := inString' |}%Z
  else
    {| skipI := i + 1; stringCount := stringCount st;
       inString := inString st |}%Z.

Definition skipStrings (text : str) : Z :=
  skipI (runWhile (length text) (skipCond text) (skipBody text)
           {| skipI := 0; stringCount := 0; inString := false |}).

(** [while (i < text.length && text[i] !== '[') i++;] *)
Definition seekCond (text : str) (i : Z) : bool :=
  (i <? len text)%Z && negb (charIs text i "["%char).

Definition seekBracket (text : str) (i : Z) : Z :=
  runWhile (length text) (seekCond text) (fun i => (i + 1)%Z) i.

(** [findContentSectionsEnd(text)]. *)
Definition findContentSectionsEnd (text : str) : Z :=
  let i := skipStrings text in
  let i := seekBracket text i in
  if (i >=? len text)%Z then (-1)%Z
  else scanClose "["%char "]"%char text (i + 1).

(** The items of a list, from the text between the brackets of its ['items']:
<<
    while ((itemMatch = itemRegex.exec(itemsStr)) !== null) {
      const val = itemMatch[1].replace(/\\'/g, "'");
      if (val !== 'true' && val !== 'false' && val.length > 2) {
        list.items.push(val);
      }
    }
>> *)
Definition keepItem (val : str) : bool :=
  negb (str_eqb val (js "true")) && negb (str_eqb val (js "false"))
  && (2 <? len val)%Z.

Definition extractItems (itemsStr : str) : list str :=
  fold_left
    (fun items itemMatch =>
       let val := unescapeQuotes (group 1 itemMatch) in
       if keepItem val then push items val else items)
    (matchAll itemRegex itemsStr) [].

(** One object of a ['lists'] array; the source writes this body twice, for
    the lists of a section and for those of a subsection. *)
Definition parseListObject (listStr : str) : ContentList :=
  let itemsStart := indexOf listStr (js "'items'") 0 in
  let items :=
    if (itemsStart =? -1)%Z then []
    else
      let itemsArrStart := indexOf listStr (js "[") itemsStart in
      if (itemsArrStart =? -1)%Z then []
      else
        let itemPos := scanClose "["%char "]"%char listStr (itemsArrStart + 1) in
        let itemsStr := substring listStr (itemsArrStart + 1) (itemPos - 1) in
        extractItems itemsStr in
  {| listTitle := valueOf (extractStringValue listStr (js "title"));
     ordered := includes listStr (js "'ordered': true");
     items := items |}.

(** The ['lists'] of a section or of a subsection: a list is kept when it has
    items ([if (list.items.length > 0) section.lists.push(list)]). *)
Definition parseLists (objStr : str) : list ContentList :=
  let listsStart := indexOf objStr (js "'lists'") 0 in
  if (listsStart =? -1)%Z then []
  else
    let listsArrStart := indexOf objStr (js "[") listsStart in
    if (listsArrStart =? -1)%Z then []
    else
      let listPos := scanClose "["%char "]"%char objStr (listsArrStart + 1) in
      let listsStr := substring objStr (listsArrStart + 1) (listPos - 1) in
      fold_left
        (fun lists listStr =>
           let lst := parseListObject listStr in
           if 0 <? length (items lst) then push lists lst else lists)
        (splitTopLevelObjects listsStr) [].

(** The items of the legacy shape, a bare ['items'] array:
<<
    while ((itemMatch = itemRegex.exec(simpleListMatch[1])) !== null) {
      const val = itemMatch[1].replace(/\\'/g, "'");
      if (val.length > 2) items.push(val);
    }
>> *)
Definition extractLegacyItems (body : str) : list str :=
  fold_left
    (fun items itemMatch =>
       let val := unescapeQuotes (group 1 itemMatch) in
       if (2 <? len val)%Z then push items val else items)
    (matchAll itemRegex body) [].

(** The legacy step of a subsection, on the lists found so far:
<<
    if (sub.lists.length === 0) {
      const simpleListMatch = subStr.match(/'items'\s*:\s*\[([\s\S]*?)\]/);
      if (simpleListMatch) {
        ...
        if (items.length > 0) {
          sub.lists.push({ title: '', ordered: false, items });
        }
      }
    }
>> *)
Definition legacyLists (subStr : str) (lists : list ContentList)
    : list ContentList :=
  if length lists =? 0 then
    match exec simpleListRegex subStr with
    | Some simpleListMatch =>
        let items := extractLegacyItems (group 1 simpleListMatch) in
        if 0 <? length items
        then push lists {| listTitle := []; ordered := false; items := items |}
        else lists
    | None => lists
    end
  else lists.

(** The body of [for (const subStr of subObjects)]. *)
Definition parseSubsection (subStr : str) : Subsection :=
  let subImgMatch := exec objectImageRegex subStr in
  {| subheading := valueOf (extractStringValue subStr (js "subheading"));
     subContent := valueOf (extractStringValue subStr (js "content"));
     subAdditionalContent := valueOf (extractStringValue subStr (js "additional_content"));
     subImageSrc := option_map (group 1) subImgMatch;
     subImageAlt := option_map (group 2) subImgMatch;
     subLists := legacyLists subStr (parseLists subStr) |}.

Definition parseSubsections (sectionStr : str) : list Subsection :=
  let subStart := indexOf sectionStr (js "'subsections'") 0 in
  if (subStart =? -1)%Z then []
  else
    let subArrStart := indexOf sectionStr (js "[") subStart in
    if (subArrStart =? -1)%Z then []
    else
      let subPos := scanClose "["%char "]"%char sectionStr (subArrStart + 1) in
      let subsStr := substring sectionStr (subArrStart + 1) (subPos - 1) in
      fold_left (fun subs subStr => push subs (parseSubsection subStr))
        (splitTopLevelObjects subsStr) [].

(** The body of [for (const sectionStr of sectionObjects)]. *)
Definition parseSection (sectionStr : str) : Section :=
  let sectionImgMatch := exec objectImageRegex sectionStr in
  {| secId := valueOf (extractStringValue sectionStr (js "id"));
     heading := valueOf (extractStringValue sectionStr (js "heading"));
     content := valueOf (extractStringValue sectionStr (js "content"));
     additionalContent := valueOf (extractStringValue sectionStr (js "additional_content"));
     lists := parseLists sectionStr;
     secImageSrc := option_map (group 1) sectionImgMatch;
     secImageAlt := option_map (group 2) sectionImgMatch;
     subsections := parseSubsections sectionStr |}.

(** Where the array of sections starts, [-1] when it does not. *)
Definition sectionsArrayStart (hashContent : str) : Z :=
  let csStart := indexOf hashContent (js "'content_sections'") 0 in
  if negb (csStart =? -1)%Z then indexOf hashContent (js "[") csStart
  else
    let i := skipStrings hashContent in
    let i := seekBracket hashContent i in
    if (i <? len hashContent)%Z then i else (-1)%Z.

(** The text between the brackets of the array of sections. *)
Definition sectionsBody (hashContent : str) (arrStart : Z) : str :=
  let pos := scanClose "["%char "]"%char hashContent (arrStart + 1) in
  substring hashContent (arrStart + 1) (pos - 1).

(** [parseContentSections(hashContent)]. *)
Definition parseContentSections (hashContent : str) : list Section :=
  let sections := [] in
  let arrStart := sectionsArrayStart hashContent in
  if (arrStart =? -1)%Z || (arrStart >=? len hashContent)%Z then sections
  else
    fold_left (fun sections sectionStr => push sections (parseSection sectionStr))
      (splitTopLevelObjects (sectionsBody hashContent arrStart)) sections.

(** [parseArticleDataPattern(content, setStart, result)]. *)
Definition parseArticleDataPattern (content : str) (setStart : Z)
    (result : ParsedArticle) : ParsedArticle :=
  let afterSet :=
    indexOf content (js "{") (indexOf content (js "{") setStart + 1) in
  let pos := scanClose "{"%char "}"%char content (afterSet + 1) in
  let hashContent := substring content afterSet pos in
  {| metaTitle := metaTitle result;
     metaDescription := metaDescription result;
     title := Some (valueOf (extractStringValue hashContent (js "title")));
     imagePath :=
       match exec imageRegex hashContent with
       | Some imageMatch => Some (group 1 imageMatch)
       | None => imagePath result
       end;
     imageAlt := Some (valueOf (extractStringValue hashContent (js "image_alt")));
     introText := Some (valueOf (extractStringValue hashContent (js "intro_text")));
     tocItems :=
       Some (fold_left
               (fun toc tocMatch =>
                  push toc {| href := group 1 tocMatch;
                              tocTitle := group 2 tocMatch |})
               (matchAll tocHrefTitleRegex hashContent) []);
     contentSections := Some (parseContentSections hashContent);
     conclusion := Some (valueOf (extractStringValue hashContent (js "conclusion")));
     rawHtml := rawHtml result |}.

(** The table of contents of the positional form, lines 522 to 550 of
    [parseMacroCallPattern]: three loops over the matches of a pattern, the
    second and the third run when [result.tocItems.length === 0]. *)
Definition extractTocItems (macroArgs : str) : list TocItem :=
  let tocItems := [] in
  let contentSectionsEnd := findContentSectionsEnd macroArgs in
  let afterSections :=
    if (0 <? contentSectionsEnd)%Z
    then substringFrom macroArgs contentSectionsEnd
    else macroArgs in
  let tocItems :=
    fold_left
      (fun toc tocM => push toc {| href := group 2 tocM; tocTitle := group 1 tocM |})
      (matchAll tocTitleHrefRegex afterSections) tocItems in
  let tocItems :=
    if length tocItems =? 0 then
      fold_left
        (fun toc tocM => push toc {| href := group 1 tocM; tocTitle := group 2 tocM |})
        (matchAll tocHrefTitleRegex afterSections) tocItems
    else tocItems in
  let tocItems :=
    if length tocItems =? 0 then
      fold_left
        (fun toc tocM =>
           if startsWith (group 2 tocM) (js "#")
           then push toc {| href := group 2 tocM; tocTitle := group 1 tocM |}
           else toc)
        (matchAll tocTitleHrefRegex macroArgs) tocItems
    else tocItems in
  tocItems.

(** The arguments of the call: the text between the parenthesis that follows
    [macroStart] and the end of the parenthesis scan. *)
Definition macroArguments (content : str) (macroStart : Z) : str :=
  let parenStart := indexOf content (js "(") macroStart in
  let pos := scanClose "("%char ")"%char content (parenStart + 1) in
  substring content (parenStart + 1) (pos - 1).

(** [parseMacroCallPattern(content, macroStart, result)]. *)
Definition parseMacroCallPattern (content : str) (macroStart : Z)
    (result : ParsedArticle) : ParsedArticle :=
  let macroArgs := macroArguments content macroStart in
  let afterAsset :=
    (indexOf macroArgs (js ")") (indexOf macroArgs (js "asset(") 0) + 1)%Z in
  let afterAssetStr := substringFrom macroArgs afterAsset in
  {| metaTitle := metaTitle result;
     metaDescription := metaDescription result;
     title :=
       match execAtStart firstStringRegex macroArgs with
       | Some titleMatch => Some (unescapeQuotes (group 1 titleMatch))
       | None => title result
       end;
     imagePath :=
       match exec assetRegex macroArgs with
       | Some imageMatch => Some (group 1 imageMatch)
       | None => imagePath result
       end;
     imageAlt :=
       match exec altRegex afterAssetStr with
       | Some altMatch => Some (unescapeQuotes (group 1 altMatch))
       | None => imageAlt result
       end;
     introText :=
       match exec introRegex afterAssetStr with
       | Some introMatch => Some (unescapeQuotes (group 1 introMatch))
       | None => introText result
       end;
     tocItems := Some (extractTocItems macroArgs);
     contentSections := Some (parseContentSections macroArgs);
     conclusion := conclusion result;
     rawHtml := rawHtml result |}.

(** [extractFallbackContent(content, result)]. *)
Definition extractFallbackContent (content : str) (result : ParsedArticle)
    : ParsedArticle :=
  match exec workareaRegex content with
  | Some workareaMatch =>
      {| metaTitle := metaTitle result;
         metaDescription := metaDescription result;
         title := title result;
         imagePath := imagePath result;
         imageAlt := imageAlt result;
         introText := introText result;
         tocItems := tocItems result;
         contentSections := contentSections result;
         conclusion := conclusion result;
         rawHtml :=
           Some (trim (replaceAll twigTagRegex []
                         (replaceAll twigPrintRegex [] (group 1 workareaMatch)))) |}
  | None => result
  end.

(** The [result] once the meta title and the meta description are read. *)
Definition metaResult (content : str) : ParsedArticle :=
  {| metaTitle :=
       match exec titleBlockRegex content with
       | Some titleMatch =>
           Some (trim (replaceAll spacesRegex (js " ")
                         (replaceAll twigPrintRegex [] (group 1 titleMatch))))
       | None => None
       end;
     metaDescription :=
       match exec metaDescRegex content with
       | Some metaDescMatch => Some (trim (group 1 metaDescMatch))
       | None => None
       end;
     title := None; imagePath := None; imageAlt := None; introText := None;
     tocItems := None; contentSections := None; conclusion := None;
     rawHtml := None |}.

(** [parseTwigFile(filePath)], on the [content] that [readFileSync] returns for
    [filePath]. *)
Definition parseTwigFile (content : str) : ParsedArticle :=
  let result := metaResult content in
  let setStart := indexOf content (js "{% set article_data") 0 in
  if negb (setStart =? -1)%Z then parseArticleDataPattern content setStart result
  else
    let macroStart := indexOf content (js "blog_macros.blog_content(") 0 in
    if negb (macroStart =? -1)%Z
    then parseMacroCallPattern content macroStart result
    else extractFallbackContent content result.

(* ------------------------------------------------------------------------- *)
(** ** The rich-text builder *)

(** The body of [for (const part of parts)] in [parseInlineHtml]. *)
Definition inlinePart (children : list TextRun) (part : str) : list TextRun :=
  if negb (truthy part) then children
  else
    match exec linkRegex part with
    | Some linkMatch =>
        let innerText := trim (replaceAll emphasisTagRegex [] (group 2 linkMatch)) in
        let isBold := test boldOpenRegex (group 2 linkMatch) in
        if isBold
        then push children {| text := innerText; bold := true; italic := false |}
        else push children {| text := innerText; bold := false; italic := false |}
    | None =>
        match exec boldRegex part with
        | Some boldMatch =>
            push children {| text := group 1 boldMatch; bold := true; italic := false |}
        | None =>
            match exec italicRegex part with
            | Some italicMatch =>
                push children
                  {| text := group 1 italicMatch; bold := false; italic := true |}
            | None =>
                if truthy (trim part)
                then push children {| text := part; bold := false; italic := false |}
                else children
            end
        end
    end.

(** [c => { const clean = ...; if (c.bold) clean.bold = true; ... }]. *)
Definition cleanRun (c : TextRun) : TextRun :=
  {| text := text c;
     bold := if bold c then true else false;
     italic := if italic c then true else false |}.

(** [parseInlineHtml(text)]. *)
Definition parseInlineHtml (t : str) : list TextRun :=
  let parts := splitKeep inlineTagRegex t in
  let children := fold_left inlinePart parts [] in
  let children :=
    if length children =? 0
    then push children {| text := t; bold := false; italic := false |}
    else children in
  map cleanRun children.

(** The loop over the pieces of a text between ['|'], which the source writes
    in [addParagraphs] and, again, for the intro text and for the
    conclusion. *)
Definition addParagraphs (blocks : list Block) (t : str) : list Block :=
  fold_left
    (fun blocks p =>
       let trimmed := trim p in
       if truthy trimmed
       then push blocks (Paragraph (parseInlineHtml trimmed))
       else blocks)
    (splitChar "|"%char t) blocks.

(** [if (text) addParagraphs(blocks, text)]. *)
Definition addParagraphsIf (blocks : list Block) (t : str) : list Block :=
  if truthy t then addParagraphs blocks t else blocks.

(** The body of [for (const list of section.lists)], the same for the lists of
    a subsection. *)
Definition addList (blocks : list Block) (lst : ContentList) : list Block :=
  let blocks :=
    if truthy (listTitle lst)
    then push blocks
           (Paragraph [{| text := listTitle lst; bold := true; italic := false |}])
    else blocks in
  push blocks
    (ListBlock (ordered lst)
       (map (fun item => parseInlineHtml (unescapeQuotes item)) (items lst))).

(** The body of [for (const sub of section.subsections)]. *)
Definition addSubsection (blocks : list Block) (sub : Subsection) : list Block :=
  let blocks :=
    if truthy (subheading sub)
    then push blocks
           (Heading 3 [{| text := subheading sub; bold := false; italic := false |}])
    else blocks in
  let blocks := addParagraphsIf blocks (subContent sub) in
  let blocks :=
    if 0 <? length (subLists sub)
    then fold_left addList (subLists sub) blocks
    else blocks in
  addParagraphsIf blocks (subAdditionalContent sub).

(** The body of [for (const section of parsed.contentSections)]. *)
Definition addSection (blocks : list Block) (section : Section) : list Block :=
  let blocks :=
    if truthy (heading section)
    then push blocks
           (Heading 2 [{| text := heading section; bold := false; italic := false |}])
    else blocks in
  let blocks := addParagraphsIf blocks (content section) in
  let blocks :=
    if 0 <? length (lists section)
    then fold_left addList (lists section) blocks
    else blocks in
  let blocks := addParagraphsIf blocks (additionalContent section) in
  fold_left addSubsection (subsections section) blocks.

(** [buildRichTextContent(parsed)]. *)
Definition buildRichTextContent (parsed : ParsedArticle) : list Block :=
  let blocks := [] in
  let blocks := addParagraphsIf blocks (orEmpty (introText parsed)) in
  let blocks :=
    match contentSections parsed with
    | Some sections => fold_left addSection sections blocks
    | None => blocks
    end in
  let blocks := addParagraphsIf blocks (orEmpty (conclusion parsed)) in
  if (length blocks =? 0) && truthyOpt (rawHtml parsed)
  then push blocks
         (Paragraph [{| text := substring (orEmpty (rawHtml parsed)) 0 2000;
                        bold := false; italic := false |}])
  else blocks.

(* ------------------------------------------------------------------------- *)
(** ** Definitions that the statements use *)

(** [pat] occurs in [s]. *)
Definition occursIn (pat s : str) : Prop := exists p q, s = p ++ pat ++ q.

(** [pat] occurs in [s] at the index [i]. *)
Definition occursAt (pat s : str) (i : nat) : Prop :=
  exists p q, s = p ++ pat ++ q /\ length p = i.

(** The occurrences of a character in a string. *)
Fixpoint countChr (c : ascii) (s : str) : nat :=
  match s with
  | [] => 0
  | x :: s' => (if chr_eqb x c then 1 else 0) + countChr c s'
  end.

(** The occurrences of a character outside the single-quoted regions of a
    string: a flag is toggled on each quote that no backslash precedes, and a
    character counts when the flag is down. [prev] is the character before. *)
Fixpoint countOutsideLoop (c : ascii) (s : str) (prev : option ascii)
    (inStr : bool) : nat :=
  match s with
  | [] => 0
  | x :: s' =>
      let escaped :=
        match prev with Some b => chr_eqb b backslash | None => false end in
      if chr_eqb x quote && negb escaped
      then countOutsideLoop c s' (Some x) (negb inStr)
      else (if negb inStr && chr_eqb x c then 1 else 0)
           + countOutsideLoop c s' (Some x) inStr
  end.

Definition countOutsideQuotes (c : ascii) (s : str) : nat :=
  countOutsideLoop c s None false.

(** The scan as the specification words it: the depth follows the delimiters
    outside the quoted regions only; the result is the index one past the
    delimiter that brings the depth back to zero, [None] when the text ends
    first. [rest] is the text from [pos] on. *)
Fixpoint quoteAwareLoop (open close : ascii) (rest : str) (prev : option ascii)
    (inStr : bool) (pos depth : nat) : option nat :=
  match rest with
  | [] => None
  | x :: rest' =>
      let escaped :=
        match prev with Some b => chr_eqb b backslash | None => false end in
      if chr_eqb x quote && negb escaped
      then quoteAwareLoop open close rest' (Some x) (negb inStr) (S pos) depth
      else if negb inStr && chr_eqb x open
      then quoteAwareLoop open close rest' (Some x) inStr (S pos) (S depth)
      else if negb inStr && chr_eqb x close
      then match depth with
           | 1 => Some (S pos)
           | _ => quoteAwareLoop open close rest' (Some x) inStr (S pos) (depth - 1)
           end
      else quoteAwareLoop open close rest' (Some x) inStr (S pos) depth
  end.

(** The quote-aware scan from the opening delimiter at the index [i]. *)
Definition quoteAwareClose (open close : ascii) (text : str) (i : nat)
    : option nat :=
  quoteAwareLoop open close (skipn (S i) text) (nth_error text i) false (S i) 1.


(** What [extractStringValue] does to the text between the quotes. *)
Definition unescape (raw : str) : str :=
  replaceAll escapedNewlineRegex ["010"%char] (unescapeQuotes raw).

(** A key without operator: letters, digits and underscores, and every other
    character but the operators. *)
Definition plainKey (key : str) : Prop :=
  forallb (fun c => negb (isPatternOperator c)) key = true.

(** The pattern around a key that is read as itself. *)
Definition literalValueRegex (key : str) : regex :=
  seq [Lit ([quote] ++ key ++ [quote]); spaces; L ":"; spaces; L "'";
       Group 1 (quotedBody anyChar); L "'"].

(** What [extractStringValue] returns for such a key. *)
Definition literalValue (text key : str) : str :=
  match exec (literalValueRegex key) text with
  | Some m => unescape (group 1 m)
  | None => []
  end.

(** *** The blocks of an article, in reading order *)

Definition plainRun (t : str) : TextRun :=
  {| text := t; bold := false; italic := false |}.

Definition boldRun (t : str) : TextRun :=
  {| text := t; bold := true; italic := false |}.

(** The segments of a text that make a paragraph: the pieces between ['|'],
    trimmed, those that are empty left out. *)
Definition segments (t : str) : list str :=
  filter truthy (map trim (splitChar "|"%char t)).

(** One paragraph for each segment. *)
Definition paragraphsOf (t : str) : list Block :=
  map (fun p => Paragraph (parseInlineHtml p)) (segments t).

(** A list: the paragraph of its title in bold when it has one, then the list
    block. *)
Definition listBlocks (l : ContentList) : list Block :=
  (if truthy (listTitle l) then [Paragraph [boldRun (listTitle l)]] else [])
  ++ [ListBlock (ordered l)
        (map (fun item => parseInlineHtml (unescapeQuotes item)) (items l))].

Definition subsectionBlocks (sub : Subsection) : list Block :=
  (if truthy (subheading sub) then [Heading 3 [plainRun (subheading sub)]] else [])
  ++ paragraphsOf (subContent sub)
  ++ flat_map listBlocks (subLists sub)
  ++ paragraphsOf (subAdditionalContent sub).

Definition sectionBlocks (s : Section) : list Block :=
  (if truthy (heading s) then [Heading 2 [plainRun (heading s)]] else [])
  ++ paragraphsOf (content s)
  ++ flat_map listBlocks (lists s)
  ++ paragraphsOf (additionalContent s)
  ++ flat_map subsectionBlocks (subsections s).

Definition articleBlocks (parsed : ParsedArticle) : list Block :=
  paragraphsOf (orEmpty (introText parsed))
  ++ flat_map sectionBlocks
       (match contentSections parsed with Some ss => ss | None => [] end)
  ++ paragraphsOf (orEmpty (conclusion parsed)).

(** The paragraph of last resort. *)
Definition fallbackBlock (parsed : ParsedArticle) : Block :=
  Paragraph [plainRun (substring (orEmpty (rawHtml parsed)) 0 2000)].

(** A section with every field empty. *)
Definition emptySection : Section :=
  {| secId := []; heading := []; content := []; additionalContent := [];
     lists := []; secImageSrc := None; secImageAlt := None;
     subsections := [] |}.

(** *** What the proofs about the scan and the matcher use *)

(** The iterations that a scan at the state [st] can still make. *)
Definition scanMeasure (text : str) (st : ScanState) : nat :=
  Z.to_nat (len text - scanPos st).

(** What the scan from the opening delimiter at [i] keeps true: the depth is
    the excess of opening over closing delimiters in the text read so far,
    which was positive at every index before, and a depth of zero was reached
    on a closing delimiter. *)
Definition scanInvariant (open close : ascii) (text : str) (i : nat)
    (st : ScanState) : Prop :=
  exists p : nat,
    scanPos st = Z.of_nat p /\ i < p <= length text /\
    (0 <= scanDepth st)%Z /\
    (Z.of_nat (countChr close (substring text (Z.of_nat i) (Z.of_nat p)))
     + scanDepth st
     = Z.of_nat (countChr open (substring text (Z.of_nat i) (Z.of_nat p))))%Z /\
    (forall j, i < j < p ->
       countChr close (substring text (Z.of_nat i) (Z.of_nat j))
       < countChr open (substring text (Z.of_nat i) (Z.of_nat j))) /\
    (scanDepth st = 0%Z -> nth_error text (p - 1) = Some close).


(** *** Sources and articles of the examples *)

(** A source in which the object literal is not closed. *)
Definition unterminatedSource : str :=
  js "{% set article_data = { 'title': 'T', 'content_sections': [ { 'heading': 'H'".

(** The source of the named-object scenario: title [T], intro [A|B], one
    section with heading [H], content [C] and one ordered list titled [L] of
    the items [x] and [y], conclusion [Z]. *)
Definition namedObjectSource (x y : str) : str :=
  js "{% set article_data = { 'title': 'T', 'intro_text': 'A|B', 'content_sections': [ { 'heading': 'H', 'content': 'C', 'lists': [ { 'title': 'L', 'items': ['"
  ++ x ++ js "', '" ++ y
  ++ js "'], 'ordered': true } ] } ], 'conclusion': 'Z' } %}".

(** The article of that scenario. *)
Definition scenarioArticle (x y : str) : ParsedArticle :=
  {| metaTitle := None; metaDescription := None;
     title := Some (js "T"); imagePath := None; imageAlt := Some [];
     introText := Some (js "A|B"); tocItems := Some [];
     contentSections :=
       Some [{| secId := []; heading := js "H"; content := js "C";
                additionalContent := [];
                lists := [{| listTitle := js "L"; ordered := true;
                             items := [x; y] |}];
                secImageSrc := None; secImageAlt := None;
                subsections := [] |}];
     conclusion := Some (js "Z"); rawHtml := None |}.

(** The blocks that the scenario expects. *)
Definition scenarioBlocks (x y : str) : list Block :=
  [Paragraph [plainRun (js "A")]; Paragraph [plainRun (js "B")];
   Heading 2 [plainRun (js "H")]; Paragraph [plainRun (js "C")];
   Paragraph [boldRun (js "L")];
   ListBlock true [[plainRun x]; [plainRun y]];
   Paragraph [plainRun (js "Z")]].

(** An article of which only [rawHtml] is set. *)
Definition rawOnlyArticle (raw : str) : ParsedArticle :=
  {| metaTitle := None; metaDescription := None; title := None;
     imagePath := None; imageAlt := None; introText := None;
     tocItems := None; contentSections := None; conclusion := None;
     rawHtml := Some raw |}.

(** An article of which only [introText] is set. *)
Definition introOnlyArticle (intro : str) : ParsedArticle :=
  {| metaTitle := None; metaDescription := None; title := None;
     imagePath := None; imageAlt := None; introText := Some intro;
     tocItems := None; contentSections := None; conclusion := None;
     rawHtml := None |}.

(** A segment that is a link without text, [<a href=QuQ></a>], [Q] being the
    double quote. *)
Definition emptyLinkSegment : str :=
  js "<a href=" ++ [dquote] ++ js "u" ++ [dquote] ++ js "></a>".

(** The markers of the two forms. *)
Definition namedObjectMarker : str := js "{% set article_data".
Definition positionalMarker : str := js "blog_macros.blog_content(".

(** A source of neither form, with a content region. *)
Definition fallbackSource (region : str) : str :=
  js "{% block workarea_content %}" ++ region ++ js "{% endblock %}".

(** What the fallback stores for a content region. *)
Definition stripDirectives (region : str) : str :=
  trim (replaceAll twigTagRegex [] (replaceAll twigPrintRegex [] region)).

(** *** The table of contents *)

Definition tocOfTitleHref (m : Match) : TocItem :=
  {| href := group 2 m; tocTitle := group 1 m |}.

Definition tocOfHrefTitle (m : Match) : TocItem :=
  {| href := group 1 m; tocTitle := group 2 m |}.

(** The span searched first: what follows the array of sections, or all the
    arguments when that array is not found. *)
Definition tocSpan (macroArgs : str) : str :=
  if (0 <? findContentSectionsEnd macroArgs)%Z
  then substringFrom macroArgs (findContentSectionsEnd macroArgs)
  else macroArgs.

(** The cascade: the first of the three strategies that finds an item. *)
Definition tocCascade (macroArgs : str) : list TocItem :=
  match matchAll tocTitleHrefRegex (tocSpan macroArgs) with
  | (_ :: _) as ms => map tocOfTitleHref ms
  | [] =>
      match matchAll tocHrefTitleRegex (tocSpan macroArgs) with
      | (_ :: _) as ms => map tocOfHrefTitle ms
      | [] =>
          map tocOfTitleHref
            (filter (fun m => startsWith (group 2 m) (js "#"))
               (matchAll tocTitleHrefRegex macroArgs))
      end
  end.

(** The object literal of a named-object source. *)
Definition hashContentOf (content : str) (setStart : Z) : str :=
  let afterSet :=
    indexOf content (js "{") (indexOf content (js "{") setStart + 1) in
  substring content afterSet (scanClose "{"%char "}"%char content (afterSet + 1)).

(** A positional call whose table of contents is in the order href, title. *)
Definition positionalSource : str :=
  js "{{ blog_macros.blog_content('T', asset('i.jpg'), 'Alt', 'Intro', [ { 'id': 'a', 'heading': 'H' } ], [ { 'href': '#a', 'title': 'First' }, { 'href': '#b', 'title': 'Second' } ], 'Z') }}".

(** A named-object source with a table of contents of one object. *)
Definition namedTocSource (object : str) : str :=
  js "{% set article_data = { 'title': 'T', 'toc_items': [ " ++ object
  ++ js " ] } %}".

(** A positional call followed, after its closing parenthesis, by an object of
    a table of contents. *)
Definition tocOutsideCallSource : str :=
  js "{{ blog_macros.blog_content('T') }} { 'title': 'X', 'href': '#x' }".

(** *** Lists *)

(** The legacy list of a body of items. *)
Definition legacyListOf (body : str) : list ContentList :=
  match extractLegacyItems body with
  | [] => []
  | its => [{| listTitle := []; ordered := false; items := its |}]
  end.





(** A subsection whose bare items are the words [true] and [false]. *)
Definition booleanItemsSubsection : str :=
  js "{ 'subheading': 'S', 'items': ['true', 'false'] }".

(** A named-object source whose section has that subsection. *)
Definition booleanItemsSource : str :=
  js "{% set article_data = { 'content_sections': [ { 'heading': 'H', 'subsections': [ { 'subheading': 'S', 'items': ['true', 'false'] } ] } ] } %}".

(** The same items in a ['lists'] array of a section. *)
Definition booleanItemsSection : str :=
  js "{ 'heading': 'H', 'lists': [ { 'title': 'L', 'items': ['true', 'false', 'kept item'] } ] }".

(** A named-object source whose array of sections holds one empty object. *)
Definition emptyObjectSource : str :=
  js "{% set article_data = { 'content_sections': [ {} ] } %}".




(** What a subsection without structured list takes from the legacy shape. *)
Definition legacyOf (subStr : str) : list ContentList :=
  match exec simpleListRegex subStr with
  | Some m => legacyListOf (group 1 m)
  | None => []
  end.

(** *** What a match is

    [Matches r m cs cs']: the pattern [r] matches the text [m], the captures
    [cs] becoming [cs']. The matcher finds only such matches
    ([run_sound]). *)
Inductive Matches : regex -> str -> Caps -> Caps -> Prop :=
| MatchesEps cs : Matches Eps [] cs cs
| MatchesChr (p : ascii -> bool) c cs : p c = true -> Matches (Chr p) [c] cs cs
| MatchesLit l cs : Matches (Lit l) l cs cs
| MatchesSeq r1 r2 m1 m2 cs cs1 cs2 :
    Matches r1 m1 cs cs1 -> Matches r2 m2 cs1 cs2 ->
    Matches (Seq r1 r2) (m1 ++ m2) cs cs2
| MatchesAltL r1 r2 m cs cs1 :
    Matches r1 m cs cs1 -> Matches (Alt r1 r2) m cs cs1
| MatchesAltR r1 r2 m cs cs1 :
    Matches r2 m cs cs1 -> Matches (Alt r1 r2) m cs cs1
| MatchesStarNil g r cs : Matches (Star g r) [] cs cs
| MatchesStarCons g r m1 m2 cs cs1 cs2 :
    Matches r m1 cs cs1 -> Matches (Star g r) m2 cs1 cs2 ->
    Matches (Star g r) (m1 ++ m2) cs cs2
| MatchesGroup n r m cs cs1 :
    Matches r m cs cs1 -> Matches (Group n r) m cs ((n, m) :: cs1).

(** White space only. *)
Definition whitespace (w : str) : Prop := forallb isSpace w = true.

(** The text ['key' : 'value'], white space allowed around the colon, of a
    value without quote. *)
Definition keyValueText (key value txt : str) : Prop :=
  exists w1 w2,
    whitespace w1 /\ whitespace w2 /\ ~ In quote value /\
    txt = [quote] ++ key ++ [quote] ++ w1 ++ js ":" ++ w2
          ++ [quote] ++ value ++ [quote].

(** The text [{ 'key1' : 'value1' , 'key2' : 'value2' }], white space allowed
    between its tokens. *)
Definition tocObjectText (key1 value1 key2 value2 txt : str) : Prop :=
  exists w1 w2 w3 w4 kv1 kv2,
    whitespace w1 /\ whitespace w2 /\ whitespace w3 /\ whitespace w4 /\
    keyValueText key1 value1 kv1 /\ keyValueText key2 value2 kv2 /\
    txt = js "{" ++ w1 ++ kv1 ++ w2 ++ js "," ++ w3 ++ kv2 ++ w4 ++ js "}".

(** An item that is read from an object of the text [s] with its href at the
    key ['href'] and its title at the key ['title'], in one order or the
    other. *)
Definition readFromObject (s : str) (item : TocItem) : Prop :=
  exists txt,
    occursIn txt s /\
    (tocObjectText (js "title") (tocTitle item) (js "href") (href item) txt \/
     tocObjectText (js "href") (href item) (js "title") (tocTitle item) txt).


(* ------------------------------------------------------------------------- *)
(** ** Facts about strings *)

Lemma chr_eqb_eq (a b : ascii) : chr_eqb a b = true <-> a = b.
Proof. apply Ascii.eqb_eq. Qed.

Lemma chr_eqb_neq (a b : ascii) : chr_eqb a b = false <-> a <> b.
Proof. apply Ascii.eqb_neq. Qed.

Lemma chr_eqb_refl (a : ascii) : chr_eqb a a = true.
Proof. apply Ascii.eqb_refl. Qed.

Lemma str_eqb_eq (a b : str) : str_eqb a b = true <-> a = b.
Proof.
  revert b; induction a as [|x a IH]; intros [|y b]; simpl.
  - split; reflexivity.
  - split; discriminate.
  - split; discriminate.
  - rewrite andb_true_iff, chr_eqb_eq, IH. split.
    + intros [-> ->]; reflexivity.
    + intros H; inversion H; auto.
Qed.

Lemma startsWith_app (s p : str) :
  startsWith s p = true <-> exists q, s = p ++ q.
Proof.
  revert s; induction p as [|x p IH]; intros s; simpl.
  - split; eauto.
  - destruct s as [|y s].
    + split; [discriminate | intros [q H]; discriminate].
    + rewrite andb_true_iff, chr_eqb_eq, IH. split.
      * intros [-> [q ->]]. eauto.
      * intros [q H]. inversion H; subst. eauto.
Qed.

Lemma startsWith_skipn (s p : str) :
  startsWith s p = true -> s = p ++ skipn (length p) s.
Proof.
  intros H. apply startsWith_app in H. destruct H as [q ->].
  now rewrite skipn_app, skipn_all, Nat.sub_diag.
Qed.

Lemma findFrom_none (pat s : str) (i : nat) :
  findFrom pat s i = None <-> ~ occursIn pat s.
Proof.
  revert i; induction s as [|c s IH]; intros i; simpl.
  - destruct (startsWith [] pat) eqn:E.
    + split; [discriminate|]. intros H; exfalso; apply H.
      apply startsWith_app in E. destruct E as [q E]. exists [], q. exact E.
    + split; [|reflexivity]. intros _ (p & q & H).
      destruct p; [|discriminate]. simpl in H.
      assert (startsWith [] pat = true) by (apply startsWith_app; eauto).
      congruence.
  - destruct (startsWith (c :: s) pat) eqn:E.
    + split; [discriminate|]. intros H; exfalso; apply H.
      apply startsWith_app in E. destruct E as [q E]. exists [], q. exact E.
    + rewrite IH. split.
      * intros H (p & q & Hpq). destruct p as [|x p].
        -- assert (startsWith (c :: s) pat = true) by (apply startsWith_app; eauto).
           congruence.
        -- inversion Hpq; subst. apply H. exists p, q. reflexivity.
      * intros H (p & q & Hpq). apply H. exists (c :: p), q. now rewrite Hpq.
Qed.

Lemma clamp_zero (s : str) : clamp s 0 = 0.
Proof. unfold clamp, len. lia. Qed.

(** [indexOf] returns [-1] exactly when the pattern does not occur. *)
Lemma indexOf_absent (s pat : str) :
  indexOf s pat 0 = (-1)%Z <-> ~ occursIn pat s.
Proof.
  unfold indexOf. rewrite clamp_zero. simpl skipn.
  rewrite <- (findFrom_none pat s 0).
  destruct (findFrom pat s 0); split; intros H; try reflexivity;
    try discriminate; exfalso; lia.
Qed.

(** [indexOf] returns an index or [-1], so that a scan started one past its
    result starts at an index that is not negative. *)
Lemma indexOf_lower_bound (s pat : str) (from : Z) :
  (-1 <= indexOf s pat from)%Z.
Proof.
  unfold indexOf.
  destruct (findFrom pat (skipn (clamp s from) s) (clamp s from)); lia.
Qed.


Lemma countChr_app (c : ascii) (a b : str) :
  countChr c (a ++ b) = countChr c a + countChr c b.
Proof. induction a as [|x a IH]; simpl; [reflexivity | rewrite IH; lia]. Qed.

Lemma firstn_snoc (A : Type) (l : list A) (n : nat) (x : A) :
  nth_error l n = Some x -> firstn (S n) l = firstn n l ++ [x].
Proof.
  revert n; induction l as [|y l IH]; intros [|n] H; simpl in *;
    try discriminate.
  - now inversion H.
  - f_equal. now apply IH.
Qed.

Lemma nth_error_skipn_plus (A : Type) (l : list A) (a n : nat) :
  nth_error (skipn a l) n = nth_error l (a + n).
Proof.
  revert l; induction a as [|a IH]; intros l; simpl; [reflexivity|].
  destruct l; [now destruct n | apply IH].
Qed.

Lemma substring_nat (s : str) (a b : nat) :
  a <= b <= length s ->
  substring s (Z.of_nat a) (Z.of_nat b) = firstn (b - a) (skipn a s).
Proof.
  intros H. unfold substring, clamp, len.
  rewrite !Z.max_l, !Z.min_l, !Nat2Z.id by lia.
  now rewrite Nat.min_l, Nat.max_r by lia.
Qed.

Lemma substring_snoc (s : str) (a b : nat) (x : ascii) :
  a <= b -> nth_error s b = Some x ->
  substring s (Z.of_nat a) (Z.of_nat (S b))
  = substring s (Z.of_nat a) (Z.of_nat b) ++ [x].
Proof.
  intros Hab Hx.
  assert (b < length s) by (apply nth_error_Some; congruence).
  rewrite !substring_nat by lia.
  replace (S b - a) with (S (b - a)) by lia.
  apply firstn_snoc. rewrite nth_error_skipn_plus.
  now replace (a + (b - a)) with b by lia.
Qed.

Lemma substring_one (s : str) (a : nat) (x : ascii) :
  nth_error s a = Some x ->
  substring s (Z.of_nat a) (Z.of_nat (S a)) = [x].
Proof.
  intros Hx. rewrite (substring_snoc s (a := a) (b := a) (x := x)); auto.
  assert (a < length s) by (apply nth_error_Some; congruence).
  rewrite substring_nat by lia. now rewrite Nat.sub_diag.
Qed.

Lemma charIs_nat (s : str) (n : nat) (c : ascii) :
  charIs s (Z.of_nat n) c = true <-> nth_error s n = Some c.
Proof.
  unfold charIs, charAt.
  replace (Z.of_nat n <? 0)%Z with false by (symmetry; apply Z.ltb_ge; lia).
  rewrite Nat2Z.id. destruct (nth_error s n) as [x|].
  - rewrite chr_eqb_eq. split; congruence.
  - split; discriminate.
Qed.

(* ------------------------------------------------------------------------- *)
(** ** Facts about loops *)

Section WhileFacts.
Variable St : Type.
Variable cond : St -> bool.
Variable body : St -> St.

(** A property that the body keeps holds when the loop ends, and the condition
    is then false. *)
Lemma while_invariant (P : St -> Prop) :
  (forall s, P s -> cond s = true -> P (body s)) ->
  forall fuel s s',
    P s -> while fuel cond body s = Some s' -> P s' /\ cond s' = false.
Proof.
  intros Hstep fuel; induction fuel as [|fuel IH]; intros s s' HP; simpl;
    destruct (cond s) eqn:E; intros H; try discriminate.
  - inversion H; subst; auto.
  - eapply IH; [|exact H]. auto.
  - inversion H; subst; auto.
Qed.

(** A loop whose body lowers a measure ends within as many iterations as the
    measure allows. *)
Lemma while_terminates (m : St -> nat) :
  (forall s, cond s = true -> m (body s) < m s) ->
  forall fuel s, m s <= fuel -> exists s', while fuel cond body s = Some s'.
Proof.
  intros Hdec fuel; induction fuel as [|fuel IH]; intros s Hm; simpl;
    destruct (cond s) eqn:E; eauto.
  - apply Hdec in E. lia.
  - apply IH. apply Hdec in E. lia.
Qed.

Lemma runWhile_some (fuel : nat) (s s' : St) :
  while fuel cond body s = Some s' -> runWhile fuel cond body s = s'.
Proof. unfold runWhile. now intros ->. Qed.

End WhileFacts.

(* ------------------------------------------------------------------------- *)
(** ** Facts about the delimiter scan *)

Section ScanFacts.
Variables open close : ascii.
Variable text : str.

Lemma scanBody_decreases (st : ScanState) :
  scanCond text st = true ->
  scanMeasure text (scanBody open close text st) < scanMeasure text st.
Proof.
  unfold scanCond, scanMeasure, scanBody. simpl.
  rewrite andb_true_iff, Z.ltb_lt. lia.
Qed.

(** The scan ends within [length text] iterations when it starts at an index
    that is not negative. *)
Lemma scanLoop_terminates (pos : Z) :
  (0 <= pos)%Z ->
  exists st, scanLoop (length text) open close text pos = Some st.
Proof.
  intros Hpos. unfold scanLoop.
  apply (while_terminates (scanCond text) (scanBody open close text)
           (scanMeasure text) scanBody_decreases).
  unfold scanMeasure, len. simpl. lia.
Qed.

(** The position only grows, and stays within the text once in it. *)
Lemma scanLoop_bounds (fuel : nat) (pos : Z) (st : ScanState) :
  scanLoop fuel open close text pos = Some st ->
  (pos <= scanPos st <= Z.max pos (len text))%Z.
Proof.
  unfold scanLoop. intros H.
  apply (while_invariant (scanCond text) (scanBody open close text)
           (fun s => (pos <= scanPos s <= Z.max pos (len text))%Z)) in H.
  - tauto.
  - intros s Hs Hc. unfold scanCond in Hc.
    rewrite andb_true_iff, Z.ltb_lt in Hc. simpl. lia.
  - simpl. lia.
Qed.

Lemma scanClose_loop (pos : Z) (st : ScanState) :
  scanLoop (length text) open close text pos = Some st ->
  scanClose open close text pos = scanPos st.
Proof.
  unfold scanLoop, scanClose. intros H. now rewrite (runWhile_some _ _ _ _ H).
Qed.

Hypothesis open_close : open <> close.
Variable i : nat.
Hypothesis open_at : nth_error text i = Some open.

Local Abbreviation piece p := (substring text (Z.of_nat i) (Z.of_nat p)).
Local Abbreviation scanInv := (scanInvariant open close text i).

Lemma scanInv_init :
  scanInv {| scanPos := Z.of_nat i + 1; scanDepth := 1 |}.
Proof.
  assert (i < length text) by (apply nth_error_Some; congruence).
  exists (S i). cbn [scanPos scanDepth].
  rewrite (substring_one text i open_at). cbn [countChr].
  rewrite chr_eqb_refl.
  replace (chr_eqb open close) with false
    by (symmetry; now apply chr_eqb_neq).
  repeat split; try lia; try discriminate.
Qed.

Lemma scanInv_step (st : ScanState) :
  scanInv st -> scanCond text st = true ->
  scanInv (scanBody open close text st).
Proof.
  intros (p & Hp & Hrange & Hd & Hcount & Hbefore & Hzero) Hc.
  unfold scanCond in Hc. rewrite andb_true_iff, Z.ltb_lt, Z.ltb_lt in Hc.
  destruct Hc as [Hlt Hpos]. rewrite Hp in Hlt. unfold len in Hlt.
  assert (Hin : p < length text) by lia.
  destruct (nth_error text p) as [x|] eqn:Hx;
    [|apply nth_error_None in Hx; lia].
  exists (S p). unfold scanBody; cbn [scanPos scanDepth]. rewrite Hp.
  assert (Hpiece : piece (S p) = piece p ++ [x])
    by (apply substring_snoc; [lia | exact Hx]).
  assert (Hnew : forall j, i < j < S p ->
                   countChr close (piece j) < countChr open (piece j)).
  { intros j Hj. destruct (Nat.eq_dec j p) as [->|]; [lia | apply Hbefore; lia]. }
  rewrite Hpiece, !countChr_app. cbn [countChr]. rewrite !Nat.add_0_r.
  replace (S p - 1) with p by lia.
  destruct (charIs text (Z.of_nat p) open) eqn:Eo.
  - apply charIs_nat in Eo. assert (x = open) by congruence. subst x.
    rewrite chr_eqb_refl.
    replace (chr_eqb open close) with false
      by (symmetry; now apply chr_eqb_neq).
    repeat split; try lia; auto.
  - assert (Ho : chr_eqb x open = false).
    { apply chr_eqb_neq. intros ->. apply charIs_nat in Hx. congruence. }
    rewrite Ho.
    destruct (charIs text (Z.of_nat p) close) eqn:Ec.
    + apply charIs_nat in Ec. assert (x = close) by congruence. subst x.
      rewrite chr_eqb_refl. repeat split; try lia; auto.
    + assert (Hcl : chr_eqb x close = false).
      { apply chr_eqb_neq. intros ->. apply charIs_nat in Hx. congruence. }
      rewrite Hcl. repeat split; try lia; auto.
Qed.

(** The scan from the opening delimiter at [i] ends one past the first closing
    delimiter that balances the delimiters read, every delimiter counted; or
    at the end of the text, when no closing delimiter does. *)
Lemma scanClose_balanced :
  let r := scanClose open close text (Z.of_nat i + 1) in
  exists p : nat,
    r = Z.of_nat p /\ i < p <= length text /\
    (forall j, i < j < p -> countChr close (piece j) < countChr open (piece j)) /\
    ((nth_error text (p - 1) = Some close /\
      countChr open (piece p) = countChr close (piece p))
     \/
     (p = length text /\ countChr close (piece p) < countChr open (piece p))).
Proof.
  intros r.
  destruct (scanLoop_terminates (pos := Z.of_nat i + 1)) as [st Hst]; [lia|].
  subst r. rewrite (scanClose_loop _ Hst). unfold scanLoop in Hst.
  apply (while_invariant (scanCond text) (scanBody open close text)
           scanInv scanInv_step) in Hst; [|apply scanInv_init].
  destruct Hst as [(p & Hp & Hrange & Hd & Hcount & Hbefore & Hzero) Hc].
  exists p. repeat split; try tauto; try lia.
  unfold scanCond in Hc. rewrite andb_false_iff, Z.ltb_ge, Z.ltb_ge in Hc.
  destruct (Z.eq_dec (scanDepth st) 0) as [Hz|Hnz].
  - left. split; [auto | lia].
  - right. unfold len in Hc. split; lia.
Qed.

End ScanFacts.

Section SkipFacts.
Variable text : str.

(** The loop over the first four strings ends within [length text]
    iterations. *)
Lemma skipStrings_terminates :
  exists st,
    while (length text) (skipCond text) (skipBody text)
      {| skipI := 0; stringCount := 0; inString := false |} = Some st.
Proof.
  apply (while_terminates (skipCond text) (skipBody text)
           (fun st => Z.to_nat (len text - skipI st))).
  - intros st Hc. unfold skipCond in Hc.
    rewrite andb_true_iff, Z.ltb_lt in Hc.
    unfold skipBody.
    destruct (charIs text (skipI st) quote
              && ((skipI st =? 0)%Z || negb (charIs text (skipI st - 1) backslash)));
      simpl; lia.
  - unfold len. simpl. lia.
Qed.

(** The search of the next bracket ends within [length text] iterations. *)
Lemma seekBracket_terminates (i : Z) :
  (0 <= i)%Z ->
  exists j, while (length text) (seekCond text) (fun i => (i + 1)%Z) i = Some j.
Proof.
  intros Hi.
  apply (while_terminates (seekCond text) (fun i => (i + 1)%Z)
           (fun i => Z.to_nat (len text - i))).
  - intros k Hc. unfold seekCond in Hc.
    rewrite andb_true_iff, Z.ltb_lt in Hc. lia.
  - unfold len. lia.
Qed.

End SkipFacts.

(* ------------------------------------------------------------------------- *)
(** ** The delimiter scan: what it returns (C2) and that it ends (C7) *)

(** C2, as amended. For every text and every index [i] of an opening
    delimiter, the scan counts every opening and every closing delimiter of
    that kind, inside quotes or not: it returns the index [p] one past the
    first closing delimiter at which as many have been closed as opened, the
    text from [i] to [p] then holding as many opening as closing delimiters;
    or it returns the length of the text, when no closing delimiter balances
    them. At every index in between more have been opened than closed. *)
Theorem scanClose_first_balancing_delimiter
    (open close : ascii) (text : str) (i : nat) :
  open <> close ->
  nth_error text i = Some open ->
  exists p : nat,
    scanClose open close text (Z.of_nat i + 1) = Z.of_nat p /\
    i < p <= length text /\
    (forall j, i < j < p ->
       countChr close (substring text (Z.of_nat i) (Z.of_nat j))
       < countChr open (substring text (Z.of_nat i) (Z.of_nat j))) /\
    ((nth_error text (p - 1) = Some close /\
      countChr open (substring text (Z.of_nat i) (Z.of_nat p))
      = countChr close (substring text (Z.of_nat i) (Z.of_nat p)))
     \/
     (p = length text /\
      countChr close (substring text (Z.of_nat i) (Z.of_nat p))
      < countChr open (substring text (Z.of_nat i) (Z.of_nat p)))).
Proof.
  intros Hneq Hopen. exact (scanClose_balanced text Hneq i Hopen).
Qed.

Lemma scanClose_first_balancing_delimiter_witness :
  exists p : nat,
    scanClose "{" "}" (js "{a{b}c}d") (Z.of_nat 0 + 1) = Z.of_nat p /\
    0 < p <= length (js "{a{b}c}d") /\
    (forall j, 0 < j < p ->
       countChr "}" (substring (js "{a{b}c}d") (Z.of_nat 0) (Z.of_nat j))
       < countChr "{" (substring (js "{a{b}c}d") (Z.of_nat 0) (Z.of_nat j))) /\
    ((nth_error (js "{a{b}c}d") (p - 1) = Some "}"%char /\
      countChr "{" (substring (js "{a{b}c}d") (Z.of_nat 0) (Z.of_nat p))
      = countChr "}" (substring (js "{a{b}c}d") (Z.of_nat 0) (Z.of_nat p)))
     \/
     (p = length (js "{a{b}c}d") /\
      countChr "}" (substring (js "{a{b}c}d") (Z.of_nat 0) (Z.of_nat p))
      < countChr "{" (substring (js "{a{b}c}d") (Z.of_nat 0) (Z.of_nat p)))).
Proof.
  apply (@scanClose_first_balancing_delimiter "{" "}" (js "{a{b}c}d") 0).
  - discriminate.
  - reflexivity.
Defined.

(** C2, the claim as stated fails. In the text [{'}'}] the brace at index 2 is
    inside a quoted string and the closing delimiter of the object is at index
    4, so that a scan that skips quoted regions ends at 5. The scan of the
    source counts the quoted brace and ends at 3; between the indices 0 and 3
    one brace is opened outside quotes and none is closed. The splitter of
    top-level objects counts quoted braces too: of two objects it keeps the
    first one, cut short. *)
Lemma scanClose_counts_quoted_delimiters :
  nth_error (js "{'}'}") 0 = Some "{"%char /\
  quoteAwareClose "{" "}" (js "{'}'}") 0 = Some 5 /\
  scanClose "{" "}" (js "{'}'}") 1 = 3%Z /\
  countOutsideQuotes "{" (substring (js "{'}'}") 0 3) = 1 /\
  countOutsideQuotes "}" (substring (js "{'}'}") 0 3) = 0 /\
  splitTopLevelObjects (js "{'a': '}'} {'b': 'c'}") = [js "{'a': '}"].
Proof. repeat split; vm_compute; reflexivity. Qed.

(** C7. For every text, a delimiter scan started at an index that is not
    negative ends within as many iterations as the text has characters, at an
    index that is at most the length of the text (or at its start, when that
    is beyond the text); so do the two other loops of the extraction. The
    scans of the extraction start one past a result of [indexOf], which is not
    negative. The extraction of the named-object form returns a result with
    every field of that form set, whatever the delimiters of the source are;
    from a source whose object literal is not closed it returns the title and
    no section. *)
Theorem delimiter_scans_terminate
    (open close : ascii) (text : str) (pos : Z)
    (content pat : str) (from setStart : Z) (result : ParsedArticle) :
  (0 <= pos)%Z ->
  (0 <= indexOf content pat from + 1)%Z /\
  (exists st,
     scanLoop (length text) open close text pos = Some st /\
     scanClose open close text pos = scanPos st /\
     (pos <= scanPos st <= Z.max pos (len text))%Z) /\
  (exists st,
     while (length text) (skipCond text) (skipBody text)
       {| skipI := 0; stringCount := 0; inString := false |} = Some st) /\
  (exists j,
     while (length text) (seekCond text) (fun i => (i + 1)%Z) pos = Some j) /\
  (exists t alt intro toc secs concl,
     title (parseArticleDataPattern content setStart result) = Some t /\
     imageAlt (parseArticleDataPattern content setStart result) = Some alt /\
     introText (parseArticleDataPattern content setStart result) = Some intro /\
     tocItems (parseArticleDataPattern content setStart result) = Some toc /\
     contentSections (parseArticleDataPattern content setStart result)
     = Some secs /\
     conclusion (parseArticleDataPattern content setStart result)
     = Some concl) /\
  parseTwigFile unterminatedSource
  = {| metaTitle := None; metaDescription := None;
       title := Some (js "T"); imagePath := None; imageAlt := Some [];
       introText := Some []; tocItems := Some [];
       contentSections := Some []; conclusion := Some [];
       rawHtml := None |}.
Proof.
  intros Hpos. split; [|split; [|split; [|split; [|split]]]].
  - pose proof (indexOf_lower_bound content pat from). lia.
  - destruct (scanLoop_terminates open close text Hpos) as [st Hst].
    exists st. split; [exact Hst|]. split.
    + now apply scanClose_loop.
    + eapply scanLoop_bounds; eauto.
  - apply skipStrings_terminates.
  - now apply seekBracket_terminates.
  - simpl. repeat eexists.
  - vm_compute. reflexivity.
Qed.

Lemma delimiter_scans_terminate_witness :
  exists st,
    scanLoop (length unterminatedSource) "{" "}" unterminatedSource 24 = Some st /\
    scanClose "{" "}" unterminatedSource 24 = scanPos st /\
    (24 <= scanPos st <= Z.max 24 (len unterminatedSource))%Z.
Proof.
  refine (proj1 (proj2 (@delimiter_scans_terminate "{" "}" unterminatedSource
                          24 unterminatedSource (js "{") 0 0 emptyResult _))).
  vm_compute. discriminate.
Defined.

(* ------------------------------------------------------------------------- *)
(** ** Facts about the matcher *)

Lemma firstn_match_text (m rest : str) :
  firstn (length (m ++ rest) - length rest) (m ++ rest) = m.
Proof.
  rewrite length_app, Nat.add_sub.
  now rewrite firstn_app, firstn_all, Nat.sub_diag, app_nil_r.
Qed.

Section MatcherFacts.
Variable A : Type.
Implicit Types (k : Cont A) (s t w : str) (cs : Caps).


Lemma run_Lit_fail (l s : str) (r : regex) cs k :
  startsWith s l = false -> run (Seq (Lit l) r) s cs k = None.
Proof. intros H. simpl. now rewrite H. Qed.








End MatcherFacts.



Lemma searchFrom_none (r : regex) (s : str) (i : nat) :
  (forall p q, s = p ++ q -> matchHere r q = None) ->
  searchFrom r s i = None.
Proof.
  revert i; induction s as [|c s IH]; intros i H; simpl.
  - now rewrite (H [] []).
  - rewrite (H [] (c :: s)) by reflexivity. apply IH.
    intros p q Hpq. apply (H (c :: p) q). now rewrite Hpq.
Qed.

(* ------------------------------------------------------------------------- *)
(** ** The matcher finds matches only *)

Section MatcherSound.
Variable A : Type.
Implicit Types (k : Cont A) (s m : str) (cs : Caps).

(** What [run r] is sound means. *)
Local Abbreviation soundOn r :=
  (forall s cs k (x : A),
     run r s cs k = Some x ->
     exists m s' cs', s = m ++ s' /\ Matches r m cs cs' /\ k s' cs' = Some x).

Lemma repeatMatch_sound (g : bool) (r : regex) :
  soundOn r ->
  forall fuel s cs k (x : A),
    repeatMatch fuel g (run r) s cs k = Some x ->
    exists m s' cs',
      s = m ++ s' /\ Matches (Star g r) m cs cs' /\ k s' cs' = Some x.
Proof.
  intros IHr fuel. induction fuel as [|fuel IH]; intros s cs k x H.
  - simpl in H. exists [], s, cs. repeat split; [constructor | exact H].
  - simpl in H.
    assert (Hagain :
      run r s cs
        (fun s' cs' =>
           if length s' <? length s
           then repeatMatch fuel g (run r) s' cs' k else None) = Some x ->
      exists m s' cs',
        s = m ++ s' /\ Matches (Star g r) m cs cs' /\ k s' cs' = Some x).
    { intros Hr. apply IHr in Hr.
      destruct Hr as (m1 & s1 & cs1 & -> & Hm1 & Hk).
      destruct (length s1 <? length (m1 ++ s1)); [|discriminate].
      apply IH in Hk. destruct Hk as (m2 & s2 & cs2 & -> & Hm2 & Hk).
      exists (m1 ++ m2), s2, cs2. rewrite app_assoc.
      repeat split; [econstructor; eauto | exact Hk]. }
    destruct g.
    + destruct (run r s cs _) as [y|] eqn:E.
      * apply Hagain. now rewrite <- H.
      * exists [], s, cs. repeat split; [constructor | exact H].
    + destruct (k s cs) as [y|] eqn:E.
      * exists [], s, cs. repeat split; [constructor | congruence].
      * now apply Hagain.
Qed.

Lemma run_sound (r : regex) : soundOn r.
Proof.
  induction r as [|p|l|r1 IH1 r2 IH2|r1 IH1 r2 IH2|g r1 IH1|n r1 IH1];
    intros s cs k x H; simpl in H.
  - exists [], s, cs. repeat split; [constructor | exact H].
  - destruct s as [|c s]; [discriminate|].
    destruct (p c) eqn:E; [|discriminate].
    exists [c], s, cs. repeat split; [now constructor | exact H].
  - destruct (startsWith s l) eqn:E; [|discriminate].
    exists l, (skipn (length l) s), cs.
    repeat split; [now apply startsWith_skipn | constructor | exact H].
  - apply IH1 in H. destruct H as (m1 & s1 & cs1 & -> & Hm1 & H).
    apply IH2 in H. destruct H as (m2 & s2 & cs2 & -> & Hm2 & H).
    exists (m1 ++ m2), s2, cs2. rewrite app_assoc.
    repeat split; [econstructor; eauto | exact H].
  - destruct (run r1 s cs k) as [y|] eqn:E.
    + rewrite <- H in *. apply IH1 in E.
      destruct E as (m & s' & cs' & -> & Hm & Hk).
      exists m, s', cs'. repeat split; [now apply MatchesAltL | exact Hk].
    + apply IH2 in H. destruct H as (m & s' & cs' & -> & Hm & Hk).
      exists m, s', cs'. repeat split; [now apply MatchesAltR | exact Hk].
  - eapply repeatMatch_sound; eauto.
  - apply IH1 in H. destruct H as (m & s' & cs' & -> & Hm & Hk).
    rewrite firstn_match_text in Hk.
    exists m, s', ((n, m) :: cs'). repeat split; [now constructor | exact Hk].
Qed.

End MatcherSound.

Lemma matchHere_sound (r : regex) (s rest : str) (cs : Caps) :
  matchHere r s = Some (rest, cs) ->
  exists m, s = m ++ rest /\ Matches r m [] cs.
Proof.
  unfold matchHere. intros H. apply run_sound in H.
  destruct H as (m & s' & cs' & -> & Hm & Hk). inversion Hk; subst.
  now exists m.
Qed.

Lemma searchFrom_sound (r : regex) (s : str) (i : nat) (M : Match) :
  searchFrom r s i = Some M ->
  exists pre,
    s = pre ++ mText M ++ mRest M /\ Matches r (mText M) [] (mCaps M).
Proof.
  assert (Hhere : forall s i rest cs,
            matchHere r s = Some (rest, cs) ->
            Some {| mIndex := i; mText := firstn (length s - length rest) s;
                    mCaps := cs; mRest := rest |} = Some M ->
            exists pre,
              s = pre ++ mText M ++ mRest M /\ Matches r (mText M) [] (mCaps M)).
  { clear s i. intros s i rest cs E H. inversion H; subst M; clear H.
    cbn [mText mRest mCaps]. apply matchHere_sound in E.
    destruct E as (m & -> & Hm). rewrite firstn_match_text.
    exists []. split; [reflexivity | exact Hm]. }
  revert i; induction s as [|c s IH]; intros i; cbn [searchFrom].
  - destruct (matchHere r []) as [[rest cs]|] eqn:E; [|discriminate].
    now apply Hhere.
  - destruct (matchHere r (c :: s)) as [[rest cs]|] eqn:E.
    + now apply Hhere.
    + intros H. apply IH in H. destruct H as (pre & Hs & Hm).
      exists (c :: pre). split; [now rewrite Hs at 1 | exact Hm].
Qed.

Lemma matchAllLoop_sound (r : regex) (fuel : nat) (s : str) (i : nat)
    (M : Match) :
  In M (matchAllLoop fuel r s i) ->
  occursIn (mText M) s /\ Matches r (mText M) [] (mCaps M).
Proof.
  revert s i; induction fuel as [|fuel IH]; intros s i; simpl; [tauto|].
  destruct (searchFrom r s i) as [M0|] eqn:E; [|intros []].
  apply searchFrom_sound in E. destruct E as (pre & Hs & Hm).
  assert (Hhere : M0 = M ->
            occursIn (mText M) s /\ Matches r (mText M) [] (mCaps M)).
  { intros <-. split; [|exact Hm]. now exists pre, (mRest M0). }
  destruct (length (mRest M0) <? length s).
  - intros [H|H]; [now apply Hhere|].
    apply IH in H. destruct H as [(p & q & Hpq) HM]. split; [|exact HM].
    exists (pre ++ mText M0 ++ p), q.
    rewrite Hs, Hpq, <- !app_assoc. reflexivity.
  - intros [H|H]; [now apply Hhere|].
    destruct s as [|c s]; [destruct H|].
    apply IH in H. destruct H as [(p & q & Hpq) HM]. split; [|exact HM].
    exists (c :: p), q. now rewrite Hpq.
Qed.

Lemma matchAll_sound (r : regex) (s : str) (M : Match) :
  In M (matchAll r s) ->
  occursIn (mText M) s /\ Matches r (mText M) [] (mCaps M).
Proof. apply matchAllLoop_sound. Qed.

(* ------------------------------------------------------------------------- *)
(** ** The budgets of the matcher suffice

    The repetitions and the loops over the matches take a number of iterations
    that they may use. Each iteration consumes a character at least, so that
    the length of the string is a budget that is never exhausted: any larger
    budget gives the same result. *)

Section MatcherBudget.
Variable A : Type.
Implicit Types (k : Cont A) (s : str) (cs : Caps).

Local Abbreviation extensional body :=
  (forall s cs k1 k2,
     (forall s' cs', k1 s' cs' = k2 s' cs') -> body s cs k1 = body s cs k2).

Lemma repeatMatch_ext (g : bool) (body : str -> Caps -> Cont A -> option A) :
  extensional body ->
  forall fuel, extensional (repeatMatch fuel g body).
Proof.
  intros Hbody fuel. induction fuel as [|fuel IH]; intros s cs k1 k2 Hk; simpl.
  - apply Hk.
  - rewrite (Hk s cs).
    rewrite (Hbody s cs
               (fun s' cs' =>
                  if length s' <? length s
                  then repeatMatch fuel g body s' cs' k1 else None)
               (fun s' cs' =>
                  if length s' <? length s
                  then repeatMatch fuel g body s' cs' k2 else None)).
    + reflexivity.
    + intros s' cs'. destruct (length s' <? length s); [|reflexivity].
      now apply IH.
Qed.

Lemma run_ext (r : regex) : extensional (run (A := A) r).
Proof.
  induction r as [|p|l|r1 IH1 r2 IH2|r1 IH1 r2 IH2|g r1 IH1|n r1 IH1];
    intros s cs k1 k2 Hk; simpl.
  - apply Hk.
  - destruct s as [|c s]; [reflexivity|]. destruct (p c); [apply Hk | reflexivity].
  - destruct (startsWith s l); [apply Hk | reflexivity].
  - apply IH1. intros s' cs'. now apply IH2.
  - rewrite (IH1 s cs k1 k2 Hk), (IH2 s cs k1 k2 Hk). reflexivity.
  - now apply repeatMatch_ext.
  - apply IH1. intros s' cs'. apply Hk.
Qed.

Lemma run_fails (r : regex) s cs k :
  (forall s' cs', k s' cs' = None) -> run r s cs k = None.
Proof.
  intros Hk. destruct (run r s cs k) as [x|] eqn:E; [|reflexivity].
  apply run_sound in E. destruct E as (m & s' & cs' & _ & _ & E).
  now rewrite Hk in E.
Qed.

Lemma repeatMatch_empty (g : bool) (r : regex) cs k (fuel : nat) :
  repeatMatch fuel g (run r) [] cs k = k [] cs.
Proof.
  destruct fuel as [|fuel]; [reflexivity|]. simpl.
  rewrite run_fails by reflexivity.
  destruct g; [reflexivity|]. now destruct (k [] cs).
Qed.

(** A repetition gives the same result with every budget that is at least the
    length of the string. *)
Lemma repeatMatch_budget (g : bool) (r : regex) (f1 f2 : nat) s cs k :
  length s <= f1 -> length s <= f2 ->
  repeatMatch f1 g (run r) s cs k = repeatMatch f2 g (run r) s cs k.
Proof.
  revert f2 s cs k. induction f1 as [|f1 IH]; intros f2 s cs k H1 H2.
  - destruct s; [|simpl in H1; lia]. now rewrite !repeatMatch_empty.
  - destruct f2 as [|f2].
    + destruct s; [|simpl in H2; lia]. now rewrite !repeatMatch_empty.
    + simpl.
      rewrite (run_ext r s cs
                 (fun s' cs' =>
                    if length s' <? length s
                    then repeatMatch f1 g (run r) s' cs' k else None)
                 (fun s' cs' =>
                    if length s' <? length s
                    then repeatMatch f2 g (run r) s' cs' k else None)).
      * reflexivity.
      * intros s' cs'. destruct (length s' <? length s) eqn:E; [|reflexivity].
        apply Nat.ltb_lt in E. apply IH; lia.
Qed.

End MatcherBudget.

Lemma replaceLoop_budget (r : regex) (repl : str) (f1 f2 : nat) (s : str) :
  length s < f1 -> length s < f2 ->
  replaceLoop f1 r repl s = replaceLoop f2 r repl s.
Proof.
  revert f2 s. induction f1 as [|f1 IH]; intros f2 s H1 H2; [lia|].
  destruct f2 as [|f2]; [lia|]. simpl.
  destruct (matchHere r s) as [[rest cs]|].
  - destruct (length rest <? length s) eqn:E.
    + apply Nat.ltb_lt in E. f_equal. apply IH; lia.
    + destruct s as [|c s]; [reflexivity|]. simpl in H1, H2.
      do 2 f_equal. apply IH; lia.
  - destruct s as [|c s]; [reflexivity|]. simpl in H1, H2.
    f_equal. apply IH; lia.
Qed.

Lemma matchAllLoop_budget (r : regex) (f1 f2 : nat) (s : str) (i : nat) :
  length s < f1 -> length s < f2 ->
  matchAllLoop f1 r s i = matchAllLoop f2 r s i.
Proof.
  revert f2 s i. induction f1 as [|f1 IH]; intros f2 s i H1 H2; [lia|].
  destruct f2 as [|f2]; [lia|]. simpl.
  destruct (searchFrom r s i) as [M|] eqn:EM; [|reflexivity].
  destruct (length (mRest M) <? length s) eqn:E.
  - apply Nat.ltb_lt in E. f_equal. apply IH; lia.
  - destruct s as [|c s]; [reflexivity|].
    simpl in H1, H2. f_equal. apply IH; lia.
Qed.

Lemma splitLoop_budget (r : regex) (f1 f2 : nat) (piece s : str) :
  length s < f1 -> length s < f2 ->
  splitLoop f1 r piece s = splitLoop f2 r piece s.
Proof.
  revert f2 piece s. induction f1 as [|f1 IH]; intros f2 piece s H1 H2; [lia|].
  destruct f2 as [|f2]; [lia|]. simpl.
  destruct s as [|c s]; [reflexivity|]. simpl in H1, H2.
  destruct (matchHere r (c :: s)) as [[rest cs]|].
  - destruct (length rest <? length (c :: s)) eqn:E.
    + apply Nat.ltb_lt in E. simpl in E. do 2 f_equal. apply IH; lia.
    + apply IH; lia.
  - apply IH; lia.
Qed.

(* ------------------------------------------------------------------------- *)
(** ** What the patterns of the table of contents match *)

Lemma Matches_class_star (g : bool) (p : ascii -> bool) (m : str)
    (cs cs' : Caps) :
  Matches (Star g (Chr p)) m cs cs' -> forallb p m = true /\ cs' = cs.
Proof.
  intros H. remember (Star g (Chr p)) as r eqn:Er.
  induction H; inversion Er; subst; clear Er.
  - split; reflexivity.
  - destruct (IHMatches2 eq_refl) as [Hm2 ->].
    inversion H; subst. simpl. rewrite Hm2.
    match goal with Hp : p _ = true |- _ => rewrite Hp end.
    split; reflexivity.
Qed.

Lemma Matches_spaces (m : str) (cs cs' : Caps) :
  Matches spaces m cs cs' -> whitespace m /\ cs' = cs.
Proof. apply Matches_class_star. Qed.

Lemma not_quote_all (v : str) :
  forallb (fun x => negb (chr_eqb x quote)) v = true -> ~ In quote v.
Proof.
  induction v as [|c v IH]; simpl; [tauto|].
  rewrite andb_true_iff, negb_true_iff. intros [Hc Hv] [->|H].
  - now rewrite chr_eqb_refl in Hc.
  - now apply IH.
Qed.

Ltac invert_matches :=
  repeat match goal with
    | H : Matches (Seq _ _) _ _ _ |- _ => inversion H; subst; clear H
    | H : Matches (Lit _) _ _ _ |- _ => inversion H; subst; clear H
    | H : Matches (L _) _ _ _ |- _ => inversion H; subst; clear H
    | H : Matches (Group _ _) _ _ _ |- _ => inversion H; subst; clear H
    | H : Matches spaces _ _ _ |- _ =>
        apply Matches_spaces in H; destruct H as [? ?]; subst
    end.

Lemma Matches_keyValue (key : string) (n : nat) (m : str) (cs cs' : Caps) :
  Matches (keyValue key n) m cs cs' ->
  exists v, keyValueText (js key) v m /\ cs' = (n, v) :: cs.
Proof.
  unfold keyValue. cbn [seq]. intros H. invert_matches.
  match goal with
  | H : Matches (Star true (notChr quote)) ?v _ _
    |- exists _, keyValueText _ _ (_ ++ _ ++ _ ++ ?w1 ++ _ ++ ?w2 ++ _) /\ _ =>
      apply Matches_class_star in H; destruct H as [Hv ->];
      exists v; split; [exists w1, w2 | reflexivity]
  end.
  repeat split; try assumption.
  now apply not_quote_all.
Qed.

Lemma Matches_tocObject (key1 key2 : string) (n1 n2 : nat) (m : str)
    (cs : Caps) :
  Matches (seq [L "{"; spaces; keyValue key1 n1; spaces; L ","; spaces;
                keyValue key2 n2; spaces; L "}"]) m [] cs ->
  exists v1 v2,
    tocObjectText (js key1) v1 (js key2) v2 m /\ cs = [(n2, v2); (n1, v1)].
Proof.
  cbn [seq]. intros H. invert_matches.
  repeat match goal with
    | H : Matches (keyValue _ _) _ _ _ |- _ =>
        apply Matches_keyValue in H; destruct H as (? & ? & ?); subst
    end.
  match goal with
  | |- exists _ _, tocObjectText _ _ _ _
         (_ ++ ?a ++ ?kv1 ++ ?b ++ _ ++ ?c ++ ?kv2 ++ ?d ++ _) /\ _ =>
      match goal with
      | K1 : keyValueText _ ?v1 kv1, K2 : keyValueText _ ?v2 kv2 |- _ =>
          exists v1, v2; split; [exists a, b, c, d, kv1, kv2 | reflexivity]
      end
  end.
  repeat split; assumption.
Qed.

Lemma tocTitleHref_match (s : str) (M : Match) :
  In M (matchAll tocTitleHrefRegex s) ->
  occursIn (mText M) s /\
  tocObjectText (js "title") (group 1 M) (js "href") (group 2 M) (mText M).
Proof.
  intros H. apply matchAll_sound in H. destruct H as [Hocc Hm].
  split; [exact Hocc|].
  apply Matches_tocObject in Hm. destruct Hm as (v1 & v2 & Hobj & Hcs).
  unfold group. rewrite Hcs. exact Hobj.
Qed.

Lemma tocHrefTitle_match (s : str) (M : Match) :
  In M (matchAll tocHrefTitleRegex s) ->
  occursIn (mText M) s /\
  tocObjectText (js "href") (group 1 M) (js "title") (group 2 M) (mText M).
Proof.
  intros H. apply matchAll_sound in H. destruct H as [Hocc Hm].
  split; [exact Hocc|].
  apply Matches_tocObject in Hm. destruct Hm as (v1 & v2 & Hobj & Hcs).
  unfold group. rewrite Hcs. exact Hobj.
Qed.

Lemma occursIn_skipn (txt s : str) (n : nat) :
  occursIn txt (skipn n s) -> occursIn txt s.
Proof.
  intros (p & q & H). exists (firstn n s ++ p), q.
  rewrite <- app_assoc, <- H. symmetry. apply firstn_skipn.
Qed.

Lemma occursIn_tocSpan (txt macroArgs : str) :
  occursIn txt (tocSpan macroArgs) -> occursIn txt macroArgs.
Proof.
  unfold tocSpan, substringFrom.
  destruct (0 <? findContentSectionsEnd macroArgs)%Z; [|tauto].
  apply occursIn_skipn.
Qed.

Lemma tocCascade_read (macroArgs : str) (item : TocItem) :
  In item (tocCascade macroArgs) -> readFromObject macroArgs item.
Proof.
  unfold tocCascade, readFromObject.
  destruct (matchAll tocTitleHrefRegex (tocSpan macroArgs)) as [|m1 ms1] eqn:E1.
  - destruct (matchAll tocHrefTitleRegex (tocSpan macroArgs)) as [|m2 ms2] eqn:E2.
    + rewrite in_map_iff. intros (M & HM & Hin). subst item.
      apply filter_In in Hin. destruct Hin as [Hin _].
      apply tocTitleHref_match in Hin. destruct Hin as [Hocc Hobj].
      exists (mText M). split; [exact Hocc | left; exact Hobj].
    + rewrite <- E2, in_map_iff. intros (M & HM & Hin). subst item.
      apply tocHrefTitle_match in Hin. destruct Hin as [Hocc Hobj].
      exists (mText M). split; [now apply occursIn_tocSpan | right; exact Hobj].
  - rewrite <- E1, in_map_iff. intros (M & HM & Hin). subst item.
    apply tocTitleHref_match in Hin. destruct Hin as [Hocc Hobj].
    exists (mText M). split; [now apply occursIn_tocSpan | left; exact Hobj].
Qed.

(* ------------------------------------------------------------------------- *)
(** ** The value of a key (C8) *)

Section StringValue.
Variable key : str.

Local Abbreviation quotedKey := ([quote] ++ key ++ [quote]).

Lemma stringValue_needs_key (s : str) :
  startsWith s quotedKey = false ->
  matchHere (literalValueRegex key) s = None.
Proof. intros H. unfold matchHere. now apply run_Lit_fail. Qed.





(** No key, no value. *)
Lemma literalValue_absent (text : str) :
  ~ occursIn quotedKey text -> literalValue text key = [].
Proof.
  intros H. unfold literalValue, exec.
  rewrite searchFrom_none; [reflexivity|].
  intros p q Hpq. apply stringValue_needs_key.
  destruct (startsWith q quotedKey) eqn:E; [|reflexivity].
  exfalso. apply H. apply startsWith_app in E. destruct E as [z ->].
  exists p, z. exact Hpq.
Qed.



End StringValue.

(** *** How the key is read *)

Lemma plain_char (c : ascii) :
  isPatternOperator c = false ->
  chr_eqb c "("%char = false /\ chr_eqb c ")"%char = false /\
  chr_eqb c "."%char = false.
Proof.
  intros H. repeat split.
  - destruct (chr_eqb c "("%char) eqn:E; [|reflexivity].
    apply chr_eqb_eq in E. subst c. discriminate.
  - destruct (chr_eqb c ")"%char) eqn:E; [|reflexivity].
    apply chr_eqb_eq in E. subst c. discriminate.
  - destruct (chr_eqb c "."%char) eqn:E; [|reflexivity].
    apply chr_eqb_eq in E. subst c. discriminate.
Qed.

(** A key without operator is read as the sequence of its characters. *)
Lemma readKeyLoop_plain (key : str) :
  plainKey key ->
  forall atoms groups,
    readKeyLoop key [] atoms groups
    = Returned (seq (rev atoms ++ map (fun c => Lit [c]) key), groups).
Proof.
  unfold plainKey. induction key as [|c key IH]; intros H atoms groups.
  - simpl. now rewrite app_nil_r.
  - simpl in H. apply andb_true_iff in H. destruct H as [Hc H].
    apply negb_true_iff in Hc.
    destruct (@plain_char c Hc) as (E1 & E2 & E3).
    cbn [readKeyLoop]. rewrite E1, E2, E3, Hc. rewrite IH by exact H.
    simpl rev. now rewrite <- app_assoc.
Qed.

Section LiteralFacts.
Variable A : Type.
Implicit Types (k : Cont A) (s : str) (cs : Caps).

Lemma startsWith_app_both (s a b : str) :
  startsWith s (a ++ b)
  = startsWith s a && startsWith (skipn (length a) s) b.
Proof.
  revert s; induction a as [|x a IH]; intros s; [reflexivity|].
  destruct s as [|y s]; [reflexivity|]. simpl.
  rewrite IH. now rewrite andb_assoc.
Qed.

Lemma run_Lit_unfold (l : str) s cs k :
  run (Lit l) s cs k
  = if startsWith s l then k (skipn (length l) s) cs else None.
Proof. reflexivity. Qed.

(** Two literals in sequence are one literal. *)
Lemma run_Lit_Lit (a b : str) s cs k :
  run (Lit a) s cs (fun s' cs' => run (Lit b) s' cs' k)
  = run (Lit (a ++ b)) s cs k.
Proof.
  simpl. rewrite startsWith_app_both.
  destruct (startsWith s a); [|reflexivity]. simpl.
  destruct (startsWith (skipn (length a) s) b); [|reflexivity].
  now rewrite length_app, Nat.add_comm, skipn_skipn.
Qed.

Lemma run_litSeq (key : str) :
  forall s cs k,
    run (seq (map (fun c => Lit [c]) key)) s cs k = run (Lit key) s cs k.
Proof.
  induction key as [|c key IH]; intros s cs k.
  - simpl. now destruct s.
  - destruct key as [|c2 key]; [reflexivity|].
    change (seq (map (fun c => Lit [c]) (c :: c2 :: key)))
      with (Seq (Lit [c]) (seq (map (fun c => Lit [c]) (c2 :: key)))).
    change (Lit (c :: c2 :: key)) with (Lit ([c] ++ c2 :: key)).
    rewrite <- run_Lit_Lit.
    cbn [run]. destruct (startsWith s [c]); [|reflexivity].
    apply IH.
Qed.

(** The pattern around a key without operator matches as the pattern around
    the key as a literal does. *)
Lemma run_stringValue (key : str) s cs k :
  run (seq [L "'"; seq (map (fun c => Lit [c]) key); L "'"; spaces; L ":";
            spaces; L "'"; Group 1 (quotedBody anyChar); L "'"]) s cs k
  = run (literalValueRegex key) s cs k.
Proof.
  unfold literalValueRegex. cbn [seq].
  change (run (Seq (Lit ([quote] ++ key ++ [quote])) ?r) s cs k)
    with (run (Lit ([quote] ++ key ++ [quote])) s cs
            (fun s' cs' => run r s' cs' k)).
  rewrite <- run_Lit_Lit.
  change (run (Seq (L "'") (Seq ?a (Seq (L "'") ?r))) s cs k)
    with (run (Lit [quote]) s cs (fun s1 cs1 =>
            run a s1 cs1 (fun s2 cs2 =>
              run (Lit [quote]) s2 cs2 (fun s' cs' => run r s' cs' k)))).
  rewrite !(run_Lit_unfold [quote] s).
  destruct (startsWith s [quote]); [|reflexivity].
  rewrite run_litSeq. apply run_Lit_Lit.
Qed.

End LiteralFacts.

Lemma searchFrom_same (r1 r2 : regex) :
  (forall s, matchHere r1 s = matchHere r2 s) ->
  forall s i, searchFrom r1 s i = searchFrom r2 s i.
Proof.
  intros H s. induction s as [|c s IH]; intros i; simpl; rewrite H.
  - reflexivity.
  - destruct (matchHere r2 (c :: s)) as [[rest cs]|]; [reflexivity | apply IH].
Qed.

(** For a key without operator the call returns, and what it returns is read
    around the key as a literal. *)
Lemma extractStringValue_plain (text key : str) :
  plainKey key -> extractStringValue text key = Returned (literalValue text key).
Proof.
  intros H. unfold extractStringValue, stringValueRegex, readKey.
  rewrite (@readKeyLoop_plain key H). simpl rev. simpl app.
  unfold literalValue, exec. f_equal.
  rewrite searchFrom_same with (r2 := literalValueRegex key);
    [reflexivity|].
  intros s. unfold matchHere. apply run_stringValue.
Qed.

Lemma extractStringValue_returns (text key : str) :
  plainKey key -> exists v, extractStringValue text key = Returned v.
Proof. intros H. rewrite (@extractStringValue_plain text key H). eauto. Qed.



(** C8, the claim as stated fails. The key is spliced into the source of the
    pattern as it is, so that its operators are read as operators. The key
    [a.c] does not occur, quoted, in the text [{ 'abc': 'v' }], yet the call
    returns [v], the dot standing for any character. The key [(] leaves a
    group open, and the key [)] closes none: the call raises [SyntaxError].
    The key [(a)] opens the first capture group, which is the one returned:
    the call returns the key [a], not the value. *)
Lemma extractStringValue_reads_key_as_pattern :
  ~ occursIn (js "'a.c'") (js "{ 'abc': 'v' }") /\
  extractStringValue (js "{ 'abc': 'v' }") (js "a.c") = Returned (js "v") /\
  extractStringValue (js "{ 'title': 'T' }") (js "(") = SyntaxError /\
  extractStringValue (js "{ 'title': 'T' }") (js ")") = SyntaxError /\
  extractStringValue (js "{ 'a': 'v' }") (js "(a)") = Returned (js "a").
Proof.
  split; [apply indexOf_absent; vm_compute; reflexivity|].
  split; [vm_compute; reflexivity|].
  split; [vm_compute; reflexivity|].
  split; vm_compute; reflexivity.
Qed.

(* ------------------------------------------------------------------------- *)
(** ** The inline converter (C9) *)



(* ------------------------------------------------------------------------- *)
(** ** The block assembler (C1) *)

Lemma fold_left_push_app (X Y : Type) (f : list Y -> X -> list Y)
    (g : X -> list Y) :
  (forall acc x, f acc x = acc ++ g x) ->
  forall l acc, fold_left f l acc = acc ++ flat_map g l.
Proof.
  intros H l; induction l as [|x l IH]; intros acc; simpl.
  - now rewrite app_nil_r.
  - now rewrite IH, H, <- app_assoc.
Qed.

Lemma flat_map_option (X Y : Type) (f : X -> Y) (p : X -> bool) (l : list X) :
  flat_map (fun x => if p x then [f x] else []) l = map f (filter p l).
Proof.
  induction l as [|x l IH]; simpl; [reflexivity|].
  destruct (p x); simpl; now rewrite IH.
Qed.

Lemma addParagraphs_app (blocks : list Block) (t : str) :
  addParagraphs blocks t = blocks ++ paragraphsOf t.
Proof.
  unfold addParagraphs, paragraphsOf, segments.
  rewrite (fold_left_push_app
             (fun blocks p =>
                if truthy (trim p)
                then push blocks (Paragraph (parseInlineHtml (trim p)))
                else blocks)
             (fun p => if truthy (trim p)
                       then [Paragraph (parseInlineHtml (trim p))] else [])).
  - f_equal.
    rewrite (flat_map_option (fun p => Paragraph (parseInlineHtml (trim p)))
               (fun p => truthy (trim p))).
    induction (splitChar "|" t) as [|p ps IH]; simpl; [reflexivity|].
    destruct (truthy (trim p)); simpl; now rewrite IH.
  - intros acc p. destruct (truthy (trim p)); [reflexivity|].
    now rewrite app_nil_r.
Qed.

Lemma addParagraphsIf_app (blocks : list Block) (t : str) :
  addParagraphsIf blocks t = blocks ++ paragraphsOf t.
Proof.
  unfold addParagraphsIf. destruct t as [|c t]; simpl truthy.
  - now rewrite app_nil_r.
  - apply addParagraphs_app.
Qed.

Lemma addList_app (blocks : list Block) (l : ContentList) :
  addList blocks l = blocks ++ listBlocks l.
Proof.
  unfold addList, listBlocks, push, boldRun.
  destruct (truthy (listTitle l)); simpl; [now rewrite <- app_assoc | reflexivity].
Qed.

Lemma addLists_app (blocks : list Block) (ls : list ContentList) :
  (if 0 <? length ls then fold_left addList ls blocks else blocks)
  = blocks ++ flat_map listBlocks ls.
Proof.
  destruct ls as [|l ls].
  - simpl. now rewrite app_nil_r.
  - change (0 <? length (l :: ls)) with true. cbv iota.
    apply fold_left_push_app. apply addList_app.
Qed.

Lemma addSubsection_app (blocks : list Block) (sub : Subsection) :
  addSubsection blocks sub = blocks ++ subsectionBlocks sub.
Proof.
  unfold addSubsection, subsectionBlocks, push, plainRun.
  rewrite addParagraphsIf_app, addLists_app, addParagraphsIf_app.
  destruct (truthy (subheading sub)); simpl; now rewrite <- ?app_assoc.
Qed.

Lemma addSection_app (blocks : list Block) (s : Section) :
  addSection blocks s = blocks ++ sectionBlocks s.
Proof.
  unfold addSection, sectionBlocks, push, plainRun.
  rewrite (fold_left_push_app addSubsection subsectionBlocks addSubsection_app).
  rewrite addParagraphsIf_app, addLists_app, addParagraphsIf_app.
  destruct (truthy (heading s)); simpl; now rewrite <- ?app_assoc.
Qed.

(** The blocks are those of the article in reading order, the paragraph of last
    resort standing in for them when there are none and [rawHtml] is set. *)
Lemma buildRichTextContent_reading_order (parsed : ParsedArticle) :
  buildRichTextContent parsed
  = if (length (articleBlocks parsed) =? 0) && truthyOpt (rawHtml parsed)
    then [fallbackBlock parsed]
    else articleBlocks parsed.
Proof.
  unfold buildRichTextContent.
  assert (H : addParagraphsIf
                match contentSections parsed with
                | Some sections =>
                    fold_left addSection sections
                      (addParagraphsIf [] (orEmpty (introText parsed)))
                | None => addParagraphsIf [] (orEmpty (introText parsed))
                end (orEmpty (conclusion parsed))
              = articleBlocks parsed).
  { unfold articleBlocks. rewrite addParagraphsIf_app.
    destruct (contentSections parsed) as [ss|].
    - rewrite (fold_left_push_app addSection sectionBlocks addSection_app).
      rewrite addParagraphsIf_app. simpl. now rewrite <- app_assoc.
    - rewrite addParagraphsIf_app. simpl. reflexivity. }
  rewrite H.
  destruct ((length (articleBlocks parsed) =? 0) && truthyOpt (rawHtml parsed))
    eqn:E; [|reflexivity].
  apply andb_true_iff in E. destruct E as [E _].
  apply Nat.eqb_eq in E. apply length_zero_iff_nil in E. rewrite E.
  reflexivity.
Qed.

Lemma segments_not_empty (t seg : str) : In seg (segments t) -> seg <> [].
Proof.
  unfold segments. rewrite filter_In. intros [_ H] ->. discriminate.
Qed.

(** C1, as amended. For every article the blocks are those of the article in
    reading order: one paragraph for each segment of the intro text (the
    pieces between ['|'], trimmed, the empty ones left out); then for each
    section in order a heading of level 2 when the heading is not empty, the
    paragraphs of the content, for each list the paragraph of its title in
    bold when it has one and then its list block, the paragraphs of the
    additional content, then each subsection in order (heading of level 3 when
    the subheading is not empty, paragraphs of the content, lists, paragraphs
    of the additional content); at last the paragraphs of the conclusion. When
    there is no such block and [rawHtml] is set and not empty, the paragraph of
    last resort is the only block. No paragraph is made from an empty segment.
    The article of the scenario yields the seven blocks of the scenario; the
    source of the scenario yields them when its items are longer than two
    characters, [xxx] and [yyy] say. *)
Theorem blocks_in_reading_order (parsed : ParsedArticle) (t seg : str) :
  buildRichTextContent parsed
  = (if (length (articleBlocks parsed) =? 0) && truthyOpt (rawHtml parsed)
     then [fallbackBlock parsed]
     else articleBlocks parsed) /\
  (In seg (segments t) -> seg <> []) /\
  buildRichTextContent (scenarioArticle (js "x") (js "y"))
  = scenarioBlocks (js "x") (js "y") /\
  buildRichTextContent (parseTwigFile (namedObjectSource (js "xxx") (js "yyy")))
  = scenarioBlocks (js "xxx") (js "yyy").
Proof.
  split; [|split; [|split]].
  - apply buildRichTextContent_reading_order.
  - apply segments_not_empty.
  - vm_compute; reflexivity.
  - vm_compute; reflexivity.
Qed.

Lemma blocks_in_reading_order_witness : js "A" <> [].
Proof.
  refine (proj1 (proj2 (blocks_in_reading_order emptyResult (js "A|B") (js "A"))) _).
  vm_compute. left; reflexivity.
Defined.

(** C1, the claim as stated fails. From the source of the scenario the list is
    lost: its items [x] and [y] are not longer than two characters, the parser
    keeps neither, and a list without items is not recorded; five blocks are
    built, not the seven of the scenario. An article of which only [rawHtml]
    is set has no block in reading order and yet yields a paragraph. And a
    segment that is a link without text yields a paragraph whose only run is
    the empty string. *)
Lemma scenario_source_loses_short_items :
  buildRichTextContent (parseTwigFile (namedObjectSource (js "x") (js "y")))
  = [Paragraph [plainRun (js "A")]; Paragraph [plainRun (js "B")];
     Heading 2 [plainRun (js "H")]; Paragraph [plainRun (js "C")];
     Paragraph [plainRun (js "Z")]] /\
  buildRichTextContent (parseTwigFile (namedObjectSource (js "x") (js "y")))
  <> scenarioBlocks (js "x") (js "y") /\
  articleBlocks (rawOnlyArticle (js "hello world")) = [] /\
  buildRichTextContent (rawOnlyArticle (js "hello world"))
  = [Paragraph [plainRun (js "hello world")]] /\
  segments emptyLinkSegment = [emptyLinkSegment] /\
  buildRichTextContent (introOnlyArticle emptyLinkSegment)
  = [Paragraph [plainRun []]].
Proof.
  assert (H : buildRichTextContent
                (parseTwigFile (namedObjectSource (js "x") (js "y")))
              = [Paragraph [plainRun (js "A")]; Paragraph [plainRun (js "B")];
                 Heading 2 [plainRun (js "H")]; Paragraph [plainRun (js "C")];
                 Paragraph [plainRun (js "Z")]])
    by (vm_compute; reflexivity).
  split; [exact H|]. split; [rewrite H; discriminate|].
  repeat split; vm_compute; reflexivity.
Qed.

(* ------------------------------------------------------------------------- *)
(** ** Loops that push *)

Lemma fold_left_push_map (X Y : Type) (f : X -> Y) (l : list X) (acc : list Y) :
  fold_left (fun acc x => push acc (f x)) l acc = acc ++ map f l.
Proof.
  revert acc; induction l as [|x l IH]; intros acc; simpl.
  - now rewrite app_nil_r.
  - rewrite IH. unfold push. now rewrite <- app_assoc.
Qed.

Lemma fold_left_push_filter (X Y : Type) (f : X -> Y) (p : X -> bool)
    (l : list X) (acc : list Y) :
  fold_left (fun acc x => if p x then push acc (f x) else acc) l acc
  = acc ++ map f (filter p l).
Proof.
  revert acc; induction l as [|x l IH]; intros acc; simpl.
  - now rewrite app_nil_r.
  - rewrite IH. destruct (p x); [|reflexivity].
    unfold push. simpl. now rewrite <- app_assoc.
Qed.

(* ------------------------------------------------------------------------- *)
(** ** The raw fallback (C3) *)

Lemma parseTwigFile_fallback (content : str) :
  ~ occursIn namedObjectMarker content ->
  ~ occursIn positionalMarker content ->
  parseTwigFile content = extractFallbackContent content (metaResult content).
Proof.
  intros H1 H2. unfold parseTwigFile.
  apply indexOf_absent in H1. apply indexOf_absent in H2.
  unfold namedObjectMarker in H1. unfold positionalMarker in H2.
  rewrite H1, H2. reflexivity.
Qed.

Lemma fallback_rawHtml (content : str) :
  rawHtml (extractFallbackContent content (metaResult content))
  = option_map (fun m => stripDirectives (group 1 m)) (exec workareaRegex content).
Proof.
  unfold extractFallbackContent.
  destruct (exec workareaRegex content); reflexivity.
Qed.

Lemma fallback_blocks (content : str) :
  let parsed := extractFallbackContent content (metaResult content) in
  buildRichTextContent parsed
  = if truthyOpt (rawHtml parsed) then [fallbackBlock parsed] else [].
Proof.
  unfold extractFallbackContent.
  destruct (exec workareaRegex content); reflexivity.
Qed.

(** C3, as amended. When neither marker occurs in the source, [parseTwigFile]
    returns what the raw fallback returns. [rawHtml] is then the content region
    without its print and tag directives, trimmed, and whole: it is not
    truncated, and it is left unset when the source has no content region.
    The blocks of the result are one paragraph, the first 2000 characters of
    [rawHtml], when [rawHtml] is set and not empty, and none otherwise. For the
    region [hello world], [rawHtml] is [hello world] and the only block is the
    paragraph [hello world]. *)
Theorem fallback_when_no_marker (content : str) :
  ~ occursIn namedObjectMarker content ->
  ~ occursIn positionalMarker content ->
  parseTwigFile content = extractFallbackContent content (metaResult content) /\
  rawHtml (parseTwigFile content)
  = option_map (fun m => stripDirectives (group 1 m)) (exec workareaRegex content) /\
  buildRichTextContent (parseTwigFile content)
  = (if truthyOpt (rawHtml (parseTwigFile content))
     then [Paragraph
             [plainRun (substring (orEmpty (rawHtml (parseTwigFile content))) 0 2000)]]
     else []) /\
  rawHtml (parseTwigFile (fallbackSource (js "hello world")))
  = Some (js "hello world") /\
  buildRichTextContent (parseTwigFile (fallbackSource (js "hello world")))
  = [Paragraph [plainRun (js "hello world")]].
Proof.
  intros H1 H2. rewrite (parseTwigFile_fallback H1 H2).
  split; [reflexivity|]. split; [apply fallback_rawHtml|].
  split; [apply fallback_blocks|].
  split; vm_compute; reflexivity.
Qed.

Lemma fallback_when_no_marker_witness :
  parseTwigFile (fallbackSource (js "hello world"))
  = extractFallbackContent (fallbackSource (js "hello world"))
      (metaResult (fallbackSource (js "hello world"))).
Proof.
  refine (proj1 (@fallback_when_no_marker (fallbackSource (js "hello world")) _ _)).
  - apply indexOf_absent. vm_compute; reflexivity.
  - apply indexOf_absent. vm_compute; reflexivity.
Defined.

(** C3, the claim as stated fails. A content region of 2001 characters is
    stored whole in [rawHtml]; the truncation, to 2000 characters, is made on
    the paragraph when the blocks are built. And a source of neither form that
    has no content region leaves [rawHtml] unset and yields no block. *)
Lemma rawHtml_is_not_truncated :
  ~ occursIn namedObjectMarker (fallbackSource (repeat "a"%char 2001)) /\
  ~ occursIn positionalMarker (fallbackSource (repeat "a"%char 2001)) /\
  rawHtml (parseTwigFile (fallbackSource (repeat "a"%char 2001)))
  = Some (repeat "a"%char 2001) /\
  buildRichTextContent (parseTwigFile (fallbackSource (repeat "a"%char 2001)))
  = [Paragraph [plainRun (repeat "a"%char 2000)]] /\
  ~ occursIn namedObjectMarker (js "<p>plain page</p>") /\
  ~ occursIn positionalMarker (js "<p>plain page</p>") /\
  rawHtml (parseTwigFile (js "<p>plain page</p>")) = None /\
  buildRichTextContent (parseTwigFile (js "<p>plain page</p>")) = [].
Proof.
  split; [apply indexOf_absent; vm_compute; reflexivity|].
  split; [apply indexOf_absent; vm_compute; reflexivity|].
  split; [vm_compute; reflexivity|].
  split; [vm_compute; reflexivity|].
  split; [apply indexOf_absent; vm_compute; reflexivity|].
  split; [apply indexOf_absent; vm_compute; reflexivity|].
  split; vm_compute; reflexivity.
Qed.

(* ------------------------------------------------------------------------- *)
(** ** The table of contents (C4) *)

Lemma extractTocItems_cascade (macroArgs : str) :
  extractTocItems macroArgs = tocCascade macroArgs.
Proof.
  unfold extractTocItems, tocCascade. cbv zeta. fold (tocSpan macroArgs).
  change (fun (toc : list TocItem) (tocM : Match) =>
            push toc {| href := group 2 tocM; tocTitle := group 1 tocM |})
    with (fun (toc : list TocItem) (tocM : Match) =>
            push toc (tocOfTitleHref tocM)).
  change (fun (toc : list TocItem) (tocM : Match) =>
            push toc {| href := group 1 tocM; tocTitle := group 2 tocM |})
    with (fun (toc : list TocItem) (tocM : Match) =>
            push toc (tocOfHrefTitle tocM)).
  change (fun (toc : list TocItem) (tocM : Match) =>
            if startsWith (group 2 tocM) (js "#")
            then push toc {| href := group 2 tocM; tocTitle := group 1 tocM |}
            else toc)
    with (fun (toc : list TocItem) (tocM : Match) =>
            if (fun m => startsWith (group 2 m) (js "#")) tocM
            then push toc (tocOfTitleHref tocM)
            else toc).
  rewrite !fold_left_push_map, fold_left_push_filter.
  destruct (matchAll tocTitleHrefRegex (tocSpan macroArgs)) as [|m1 ms1];
    [|cbn [app map length Nat.eqb]; reflexivity].
  destruct (matchAll tocHrefTitleRegex (tocSpan macroArgs)) as [|m2 ms2];
    cbn [app map length Nat.eqb]; reflexivity.
Qed.

Lemma namedObject_tocItems (content : str) (setStart : Z)
    (result : ParsedArticle) :
  tocItems (parseArticleDataPattern content setStart result)
  = Some (map tocOfHrefTitle
            (matchAll tocHrefTitleRegex (hashContentOf content setStart))).
Proof.
  unfold parseArticleDataPattern. cbv zeta. cbn [tocItems].
  change (fun (toc : list TocItem) (tocMatch : Match) =>
            push toc {| href := group 1 tocMatch; tocTitle := group 2 tocMatch |})
    with (fun (toc : list TocItem) (tocMatch : Match) =>
            push toc (tocOfHrefTitle tocMatch)).
  rewrite fold_left_push_map. reflexivity.
Qed.

Lemma namedObject_read (hashContent : str) (item : TocItem) :
  In item (map tocOfHrefTitle (matchAll tocHrefTitleRegex hashContent)) ->
  readFromObject hashContent item.
Proof.
  rewrite in_map_iff. intros (M & HM & Hin). subst item.
  apply tocHrefTitle_match in Hin. destruct Hin as [Hocc Hobj].
  exists (mText M). split; [exact Hocc | right; exact Hobj].
Qed.

(** C4, as amended. In the positional form the table of contents is found by
    the first of three strategies that finds an item, in this order: the
    objects in the order title, href in the span that follows the array of
    sections; the objects in the order href, title in that span; the objects
    in the order title, href whose href starts with [#] in all the arguments of
    the call (not in all the source). In the named-object form the objects in
    the order href, title of the object literal are the items. In both forms
    every item is read from an object of the
    text, its href being the value of the key ['href'] and its title the value
    of the key ['title'] of that object: never swapped. A table of contents in
    the order href, title yields its items in both forms. *)
Theorem toc_strategies_in_order (content : str) (macroStart setStart : Z)
    (result : ParsedArticle) (item : TocItem) :
  tocItems (parseMacroCallPattern content macroStart result)
  = Some (tocCascade (macroArguments content macroStart)) /\
  tocItems (parseArticleDataPattern content setStart result)
  = Some (map tocOfHrefTitle
            (matchAll tocHrefTitleRegex (hashContentOf content setStart))) /\
  (In item (tocCascade (macroArguments content macroStart)) ->
   readFromObject (macroArguments content macroStart) item) /\
  (In item (map tocOfHrefTitle
              (matchAll tocHrefTitleRegex (hashContentOf content setStart))) ->
   readFromObject (hashContentOf content setStart) item) /\
  tocItems (parseTwigFile positionalSource)
  = Some [{| href := js "#a"; tocTitle := js "First" |};
          {| href := js "#b"; tocTitle := js "Second" |}] /\
  tocItems (parseTwigFile
              (namedTocSource (js "{ 'href': '#a', 'title': 'First' }")))
  = Some [{| href := js "#a"; tocTitle := js "First" |}] /\
  extractTocItems (js "'T', 'Alt', 'Intro', 'More', [ ], [ { 'title': 'First', 'href': '#a' } ]")
  = [{| href := js "#a"; tocTitle := js "First" |}] /\
  extractTocItems (js "[ { 'title': 'First', 'href': '#a' }, { 'title': 'Other', 'href': '/x' } ], 'T', 'Alt', 'Intro', 'More', [ ]")
  = [{| href := js "#a"; tocTitle := js "First" |}].
Proof.
  split.
  { unfold parseMacroCallPattern. cbv zeta. cbn [tocItems].
    now rewrite extractTocItems_cascade. }
  split; [apply namedObject_tocItems|].
  split; [apply tocCascade_read|].
  split; [apply namedObject_read|].
  split; [vm_compute; reflexivity|].
  split; [vm_compute; reflexivity|].
  split; vm_compute; reflexivity.
Qed.

Lemma toc_strategies_in_order_witness :
  readFromObject (macroArguments positionalSource 3)
    {| href := js "#a"; tocTitle := js "First" |}.
Proof.
  refine (proj1 (proj2 (proj2 (@toc_strategies_in_order positionalSource 3 0
                   emptyResult {| href := js "#a"; tocTitle := js "First" |}))) _).
  vm_compute. left; reflexivity.
Defined.

(** C4, the claim as stated fails. In the named-object form a table of contents
    whose objects are in the order title, href, the order that the claim has
    tried first, yields no item. In the positional form an object that stands
    after the closing parenthesis of the call is in the source and not in the
    arguments, and the last strategy does not find it. *)
Lemma named_object_reads_one_order :
  tocItems (parseTwigFile
              (namedTocSource (js "{ 'title': 'First', 'href': '#a' }")))
  = Some [] /\
  occursIn (js "{ 'title': 'X', 'href': '#x' }") tocOutsideCallSource /\
  tocItems (parseTwigFile tocOutsideCallSource) = Some [].
Proof.
  split; [vm_compute; reflexivity|].
  split; [|vm_compute; reflexivity].
  exists (js "{{ blog_macros.blog_content('T') }} "), []. reflexivity.
Qed.

(* ------------------------------------------------------------------------- *)
(** ** Lists: the legacy shape (C5) and the items kept (C10) *)

Lemma legacyLists_cases (subStr : str) (ls : list ContentList) :
  legacyLists subStr ls
  = match ls with
    | [] => legacyOf subStr
    | _ :: _ => ls
    end.
Proof.
  unfold legacyLists, legacyOf, legacyListOf.
  destruct ls as [|l ls]; [|reflexivity]. simpl (length [] =? 0). cbv iota.
  destruct (exec simpleListRegex subStr) as [m|]; [|reflexivity].
  destruct (extractLegacyItems (group 1 m)); reflexivity.
Qed.

Lemma legacyListOf_shape (body : str) (l : ContentList) :
  In l (legacyListOf body) ->
  legacyListOf body = [l] /\ listTitle l = [] /\ ordered l = false /\
  items l = extractLegacyItems body /\ items l <> [].
Proof.
  unfold legacyListOf.
  destruct (extractLegacyItems body) as [|it its] eqn:E; simpl; [tauto|].
  intros [<-|[]]. simpl. repeat split; discriminate.
Qed.


Lemma extractLegacyItems_kept (body it : str) :
  In it (extractLegacyItems body) -> 2 < length it.
Proof.
  unfold extractLegacyItems.
  rewrite (fold_left_push_filter
             (fun m => unescapeQuotes (group 1 m))
             (fun m => (2 <? len (unescapeQuotes (group 1 m)))%Z)).
  simpl app. rewrite in_map_iff. intros (m & Heq & Hm). subst it.
  apply filter_In in Hm. destruct Hm as [_ Hm].
  apply Z.ltb_lt in Hm. unfold len in Hm. lia.
Qed.









Lemma keepItem_true (val : str) :
  keepItem val = true ->
  2 < length val /\ val <> js "true" /\ val <> js "false".
Proof.
  unfold keepItem. rewrite !andb_true_iff, !negb_true_iff, Z.ltb_lt.
  intros [[H1 H2] H3]. unfold len in H3. split; [lia|].
  split; intros ->; [vm_compute in H1 | vm_compute in H2]; discriminate.
Qed.

Lemma extractItems_kept (itemsStr it : str) :
  In it (extractItems itemsStr) -> keepItem it = true.
Proof.
  unfold extractItems.
  rewrite (fold_left_push_filter
             (fun m => unescapeQuotes (group 1 m))
             (fun m => keepItem (unescapeQuotes (group 1 m)))).
  simpl app. rewrite in_map_iff. intros (m & Heq & Hm). subst it.
  apply filter_In in Hm. tauto.
Qed.

Lemma parseListObject_items (listStr it : str) :
  In it (items (parseListObject listStr)) -> keepItem it = true.
Proof.
  unfold parseListObject. cbv zeta. cbn [items].
  destruct (indexOf listStr (js "'items'") 0 =? -1)%Z; [intros []|].
  destruct (indexOf listStr (js "[") (indexOf listStr (js "'items'") 0) =? -1)%Z;
    [intros []|].
  apply extractItems_kept.
Qed.

Lemma parseLists_kept (objStr : str) (l : ContentList) :
  In l (parseLists objStr) ->
  items l <> [] /\ forall it, In it (items l) -> keepItem it = true.
Proof.
  unfold parseLists. cbv zeta.
  destruct (indexOf objStr (js "'lists'") 0 =? -1)%Z; [intros []|].
  destruct (indexOf objStr (js "[") (indexOf objStr (js "'lists'") 0) =? -1)%Z;
    [intros []|].
  rewrite (fold_left_push_filter parseListObject
             (fun listStr => 0 <? length (items (parseListObject listStr)))).
  simpl app. rewrite in_map_iff. intros (listStr & Heq & Hl). subst l.
  apply filter_In in Hl. destruct Hl as [_ Hl]. apply Nat.ltb_lt in Hl.
  split.
  - intros E. change (0 < length (items (parseListObject listStr))) in Hl.
    rewrite E in Hl. simpl in Hl. lia.
  - intros it. apply parseListObject_items.
Qed.

Lemma subLists_kept (subStr : str) (l : ContentList) :
  In l (subLists (parseSubsection subStr)) ->
  items l <> [] /\ forall it, In it (items l) -> 2 < length it.
Proof.
  unfold parseSubsection. cbn [subLists]. rewrite legacyLists_cases.
  destruct (parseLists subStr) as [|l0 ls] eqn:E.
  - unfold legacyOf. destruct (exec simpleListRegex subStr) as [m|]; [|intros []].
    intros Hl. apply legacyListOf_shape in Hl.
    destruct Hl as (_ & _ & _ & Hitems & Hne). split; [exact Hne|].
    intros it. rewrite Hitems. apply extractLegacyItems_kept.
  - rewrite <- E. intros Hl. apply parseLists_kept in Hl.
    destruct Hl as [Hne Hk]. split; [exact Hne|].
    intros it Hit. apply Hk in Hit. apply keepItem_true in Hit. tauto.
Qed.

(** C10, on the code. Every list of a section and of a subsection has at least
    one item, and every item is longer than two characters; the items of the
    structured lists are neither [true] nor [false]. The legacy shape of a
    subsection keeps these two words: from the bare items [true] and [false] it
    makes a list of the two, which the article then holds. *)
Theorem list_items_kept (sectionStr subStr : str) (l : ContentList) (it : str) :
  (In l (lists (parseSection sectionStr)) ->
   items l <> [] /\
   (In it (items l) -> 2 < length it /\ it <> js "true" /\ it <> js "false")) /\
  (In l (subLists (parseSubsection subStr)) ->
   items l <> [] /\ (In it (items l) -> 2 < length it)) /\
  lists (parseSection booleanItemsSection)
  = [{| listTitle := js "L"; ordered := false; items := [js "kept item"] |}] /\
  subLists (parseSubsection booleanItemsSubsection)
  = [{| listTitle := []; ordered := false;
        items := [js "true"; js "false"] |}] /\
  contentSections (parseTwigFile booleanItemsSource)
  = Some [{| secId := []; heading := js "H"; content := [];
             additionalContent := []; lists := [];
             secImageSrc := None; secImageAlt := None;
             subsections :=
               [{| subheading := js "S"; subContent := [];
                   subAdditionalContent := [];
                   subImageSrc := None; subImageAlt := None;
                   subLists :=
                     [{| listTitle := []; ordered := false;
                         items := [js "true"; js "false"] |}] |}] |}].
Proof.
  split.
  { change (lists (parseSection sectionStr)) with (parseLists sectionStr).
    intros Hl. apply parseLists_kept in Hl. destruct Hl as [Hne Hk].
    split; [exact Hne|]. intros Hit. apply keepItem_true. now apply Hk. }
  split.
  { intros Hl. apply subLists_kept in Hl. destruct Hl as [Hne Hk].
    split; [exact Hne|]. apply Hk. }
  split; [vm_compute; reflexivity|].
  split; vm_compute; reflexivity.
Qed.

Lemma list_items_kept_witness :
  [js "true"; js "false"] <> [] /\ 2 < length (js "true").
Proof.
  pose proof (proj1 (proj2 (@list_items_kept [] booleanItemsSubsection
                {| listTitle := []; ordered := false;
                   items := [js "true"; js "false"] |} (js "true")))) as H.
  assert (Hin : In {| listTitle := []; ordered := false;
                      items := [js "true"; js "false"] |}
                  (subLists (parseSubsection booleanItemsSubsection)))
    by (vm_compute; left; reflexivity).
  destruct (H Hin) as [Hne Hlen]. split; [exact Hne|].
  apply Hlen. left; reflexivity.
Defined.

(* ------------------------------------------------------------------------- *)
(** ** One section for each object (C6) *)

Lemma no_quote_no_occurrence (pat s : str) :
  ~ In quote s -> In quote pat -> ~ occursIn pat s.
Proof.
  intros Hs Hpat (p & q & ->). apply Hs.
  apply in_or_app. right. apply in_or_app. now left.
Qed.

Lemma indexOf_no_quote (pat s : str) :
  ~ In quote s -> In quote pat -> indexOf s pat 0 = (-1)%Z.
Proof. intros Hs Hpat. apply indexOf_absent. now apply no_quote_no_occurrence. Qed.

Lemma extractStringValue_no_quote (key s : str) :
  plainKey key -> ~ In quote s -> valueOf (extractStringValue s key) = [].
Proof.
  intros Hkey Hs. rewrite (@extractStringValue_plain s key Hkey). simpl.
  apply literalValue_absent.
  apply no_quote_no_occurrence; [exact Hs | now left].
Qed.

Lemma objectImage_no_quote (s : str) :
  ~ In quote s -> exec objectImageRegex s = None.
Proof.
  intros Hs. unfold exec. apply searchFrom_none. intros p q ->.
  unfold matchHere, objectImageRegex. cbn [seq].
  apply run_Lit_fail.
  destruct q as [|c q]; [reflexivity|].
  change (startsWith (c :: q) (js "'image'"))
    with (chr_eqb "'" c && startsWith q (js "image'")).
  destruct (chr_eqb "'" c) eqn:E; [|reflexivity].
  exfalso. apply Hs. apply in_or_app. right. left.
  symmetry. now apply chr_eqb_eq.
Qed.

Lemma parseSection_no_quote (span : str) :
  ~ In quote span -> parseSection span = emptySection.
Proof.
  intros Hs. unfold parseSection, parseLists, parseSubsections. cbv zeta.
  rewrite !(fun key H => @extractStringValue_no_quote key span H Hs)
    by reflexivity.
  rewrite (@objectImage_no_quote span Hs).
  rewrite (@indexOf_no_quote (js "'lists'") span Hs) by (now left).
  rewrite (@indexOf_no_quote (js "'subsections'") span Hs) by (now left).
  reflexivity.
Qed.

(** C6, as amended. The sections are the objects of the array of sections, one
    section for each top-level object and in their order, whatever the object
    holds: none is left out. An object without any quoted key, the empty
    object [{}] say, yields a section with every field empty. *)
Theorem one_section_per_object (hashContent span : str) :
  parseContentSections hashContent
  = (if (sectionsArrayStart hashContent =? -1)%Z
        || (sectionsArrayStart hashContent >=? len hashContent)%Z
     then []
     else map parseSection
            (splitTopLevelObjects
               (sectionsBody hashContent (sectionsArrayStart hashContent)))) /\
  (~ In quote span -> parseSection span = emptySection) /\
  contentSections (parseTwigFile emptyObjectSource) = Some [emptySection].
Proof.
  split; [|split].
  - unfold parseContentSections. cbv zeta.
    destruct ((sectionsArrayStart hashContent =? -1)%Z
              || (sectionsArrayStart hashContent >=? len hashContent)%Z);
      [reflexivity|].
    now rewrite fold_left_push_map.
  - apply parseSection_no_quote.
  - vm_compute; reflexivity.
Qed.

Lemma one_section_per_object_witness : parseSection (js "{}") = emptySection.
Proof.
  refine (proj1 (proj2 (@one_section_per_object [] (js "{}"))) _).
  vm_compute. intros [H|[H|[]]]; discriminate.
Defined.

(** C6, the claim as stated fails. From a source whose array of sections holds
    the empty object, the parser returns one section, and none of its fields
    is set: no id, no heading, no content, no additional content, no list, no
    image and no subsection. *)
Lemma empty_object_yields_empty_section :
  exists s,
    contentSections (parseTwigFile emptyObjectSource) = Some [s] /\
    secId s = [] /\ heading s = [] /\ content s = [] /\
    additionalContent s = [] /\ lists s = [] /\ subsections s = [] /\
    secImageSrc s = None /\ secImageAlt s = None.
Proof.
  exists emptySection. split; [vm_compute; reflexivity|].
  repeat split.
Qed.
